(** * TorchNet/OpticalFlow.py: coarse-to-fine optical flow, shallow embedding

    The Python module composes a handful of PyTorch primitives
    (ReflectionPad2d, cat, Conv2d, relu, tanh, PixelShuffle, permute,
    grid_sample, broadcasting +).  The primitives are embedded after the
    library's documented semantics, the five classes of the file after their
    source text.

    - A tensor is 4-dimensional (every tensor of the file is): its four
      sizes and its element at every index.  Only the elements inside the
      sizes are data; every operation below reads its arguments inside
      their sizes only.
    - A raised RuntimeError is a value of [TorchError]; code that may raise
      lives in the [result] monad.
    - Data movement (pad, cat, pixel shuffle, permute) is polymorphic in the
      element type.  Arithmetic (convolution, relu, tanh, bilinear sampling,
      addition) is over the real numbers: rounding of floating point is not
      modelled.
    - The source calls [F.grid_sample] without [align_corners]; the flag's
      default is a parameter of [Warp.forward] and [FlowField.forward], and
      every statement below holds for both values.
    - An empty batch (size 0 on the first axis) is accepted by every
      primitive, as in current PyTorch; the other axes must be non-empty
      where the library says so. *)

From Stdlib Require Import Reals Lra Lia List ZArith Bool Arith PeanoNat.
Import ListNotations.

Set Implicit Arguments.

(** ** Errors *)

Inductive TorchError : Type :=
| CatSizeMismatch (dim expected got : nat)
| PadTooLarge (pad size : nat)
| PadEmptyInput
| ConvChannelMismatch (expected got : nat)
| ConvKernelTooLarge (padded kernel : nat)
| ConvBadStride
| PixelShuffleChannels (channels factor : nat)
| PermuteBadDims
| GridSampleBatch (input grid : nat)
| GridSampleLastDim (got : nat)
| GridSampleEmptyInput
| BroadcastMismatch (dim a b : nat).

Inductive result (A : Type) : Type :=
| Ok (a : A)
| Err (e : TorchError).

Arguments Ok {A} a.
Arguments Err {A} e.

Definition bind {A B : Type} (r : result A) (k : A -> result B) : result B :=
  match r with
  | Ok a => k a
  | Err e => Err e
  end.

Notation "x <- e ;; k" := (bind e (fun x => k))
  (at level 61, e at next level, right associativity).

Definition succeeds {A : Type} (r : result A) : Prop := exists a, r = Ok a.

(** ** Tensors *)

Record Tensor (A : Type) : Type := mkTensor {
  dim0 : nat;
  dim1 : nat;
  dim2 : nat;
  dim3 : nat;
  item : nat -> nat -> nat -> nat -> A
}.

Definition shape {A} (t : Tensor A) : nat * nat * nat * nat :=
  (dim0 t, dim1 t, dim2 t, dim3 t).

(** [tensor.tolist()]: the elements inside the sizes, as nested lists. *)
Definition tolist {A} (t : Tensor A) : list (list (list (list A))) :=
  map (fun n =>
    map (fun c =>
      map (fun h =>
        map (fun w => item t n c h w) (seq 0 (dim3 t)))
        (seq 0 (dim2 t)))
      (seq 0 (dim1 t)))
    (seq 0 (dim0 t)).

(** A single image [1 x 1 x H x W] from its rows ([d] fills nothing inside
    the sizes when the rows have equal length). *)
Definition of_rows {A} (d : A) (rows : list (list A)) : Tensor A :=
  mkTensor 1 1 (length rows) (length (hd [] rows))
    (fun _ _ h w => nth w (nth h rows []) d).

(** Row [h] of image [(n, c)], as the list of its [dim3] elements. *)
Definition row {A} (t : Tensor A) (n c h : nat) : list A :=
  map (fun w => item t n c h w) (seq 0 (dim3 t)).

Definition in_range {A} (t : Tensor A) (n c h w : nat) : Prop :=
  n < dim0 t /\ c < dim1 t /\ h < dim2 t /\ w < dim3 t.

(** Every element inside the sizes satisfies [P]. *)
Definition all_items {A} (P : A -> Prop) (t : Tensor A) : Prop :=
  forall n c h w, in_range t n c h w -> P (item t n c h w).

(** Same sizes and same elements inside them. *)
Definition tensor_eq {A} (a b : Tensor A) : Prop :=
  shape a = shape b /\
  forall n c h w, in_range a n c h w -> item a n c h w = item b n c h w.

(** ** Data movement *)

Section DataMovement.
Variable A : Type.

(** *** nn.ReflectionPad2d((left, right, top, bottom)) *)

Record ReflectionPad2d : Type := mkReflectionPad2d {
  pad_left : nat;
  pad_right : nat;
  pad_top : nat;
  pad_bottom : nat
}.

(** Source index of output index [i] along an axis of [size] elements
    padded by [before] in front: the axis is mirrored about its first and
    its last element, which are not repeated. *)
Definition reflect_index (before size i : nat) : nat :=
  if i <? before then before - i
  else if i - before <? size then i - before
  else 2 * (size - 1) - (i - before).

Definition ReflectionPad2d_forward (m : ReflectionPad2d) (input : Tensor A)
  : result (Tensor A) :=
  if (dim1 input =? 0) || (dim2 input =? 0) || (dim3 input =? 0)
  then Err PadEmptyInput
  else if dim3 input <=? pad_left m then Err (PadTooLarge (pad_left m) (dim3 input))
  else if dim3 input <=? pad_right m then Err (PadTooLarge (pad_right m) (dim3 input))
  else if dim2 input <=? pad_top m then Err (PadTooLarge (pad_top m) (dim2 input))
  else if dim2 input <=? pad_bottom m then Err (PadTooLarge (pad_bottom m) (dim2 input))
  else Ok (mkTensor (dim0 input) (dim1 input)
             (dim2 input + pad_top m + pad_bottom m)
             (dim3 input + pad_left m + pad_right m)
             (fun n c h w =>
                item input n c
                  (reflect_index (pad_top m) (dim2 input) h)
                  (reflect_index (pad_left m) (dim3 input) w))).

(** *** torch.cat(tensors, dim=1) *)

Definition cat2 (a b : Tensor A) : Tensor A :=
  mkTensor (dim0 a) (dim1 a + dim1 b) (dim2 a) (dim3 a)
    (fun n c h w =>
       if c <? dim1 a then item a n c h w else item b n (c - dim1 a) h w).

(** Sizes must agree with the first tensor except along the channel axis;
    the check names the first axis that differs. *)
Definition cat_check (a b : Tensor A) : result unit :=
  if negb (dim0 b =? dim0 a) then Err (CatSizeMismatch 0 (dim0 a) (dim0 b))
  else if negb (dim2 b =? dim2 a) then Err (CatSizeMismatch 2 (dim2 a) (dim2 b))
  else if negb (dim3 b =? dim3 a) then Err (CatSizeMismatch 3 (dim3 a) (dim3 b))
  else Ok tt.

Fixpoint cat_onto (acc : Tensor A) (rest : list (Tensor A)) : result (Tensor A) :=
  match rest with
  | [] => Ok acc
  | b :: rest' => _ <- cat_check acc b ;; cat_onto (cat2 acc b) rest'
  end.

Definition torch_cat_dim1 (first : Tensor A) (rest : list (Tensor A))
  : result (Tensor A) :=
  cat_onto first rest.

(** *** nn.PixelShuffle(upscale_factor) *)

(** Output element [(n, c, h*r + i, w*r + j)] is input element
    [(n, c*r*r + i*r + j, h, w)]. *)
Definition pixel_shuffle_apply (r : nat) (input : Tensor A) : Tensor A :=
  mkTensor (dim0 input) (dim1 input / (r * r)) (dim2 input * r) (dim3 input * r)
    (fun n c h w =>
       item input n (c * (r * r) + (h mod r) * r + w mod r) (h / r) (w / r)).

Definition PixelShuffle_forward (r : nat) (input : Tensor A) : result (Tensor A) :=
  if (r =? 0) || negb (dim1 input mod (r * r) =? 0)
  then Err (PixelShuffleChannels (dim1 input) r)
  else Ok (pixel_shuffle_apply r input).

(** *** Tensor.permute(dims) *)

Definition sizes (t : Tensor A) : list nat := [dim0 t; dim1 t; dim2 t; dim3 t].

Fixpoint index_of (d : nat) (dims : list nat) : nat :=
  match dims with
  | [] => 0
  | x :: rest => if x =? d then 0 else S (index_of d rest)
  end.

Definition is_permutation4 (dims : list nat) : bool :=
  (length dims =? 4) && forallb (fun d => existsb (Nat.eqb d) dims) [0; 1; 2; 3].

(** Axis [k] of the result is axis [dims[k]] of the input. *)
Definition permute (t : Tensor A) (dims : list nat) : result (Tensor A) :=
  if is_permutation4 dims then
    Ok (mkTensor (nth (nth 0 dims 0) (sizes t) 0) (nth (nth 1 dims 0) (sizes t) 0)
          (nth (nth 2 dims 0) (sizes t) 0) (nth (nth 3 dims 0) (sizes t) 0)
          (fun i0 i1 i2 i3 =>
             let idx := [i0; i1; i2; i3] in
             item t (nth (index_of 0 dims) idx 0) (nth (index_of 1 dims) idx 0)
                    (nth (index_of 2 dims) idx 0) (nth (index_of 3 dims) idx 0)))
  else Err PermuteBadDims.

End DataMovement.

(** ** class Pad67to68 *)

Module Pad67to68.
Section Pad67to68.
Variable A : Type.

Record t : Type := mk { pad : ReflectionPad2d }.

Definition init : t := mk (mkReflectionPad2d 0 0 0 1).

Definition forward (self : t) (input : Tensor A) : result (Tensor A) :=
  ReflectionPad2d_forward (pad self) input.
End Pad67to68.
End Pad67to68.

(** ** Arithmetic on real-valued tensors *)

Open Scope R_scope.

Definition map_tensor (f : R -> R) (x : Tensor R) : Tensor R :=
  mkTensor (dim0 x) (dim1 x) (dim2 x) (dim3 x)
    (fun n c h w => f (item x n c h w)).

(** F.relu and F.tanh, elementwise. *)
Definition F_relu (x : Tensor R) : Tensor R := map_tensor (Rmax 0) x.
Definition F_tanh (x : Tensor R) : Tensor R := map_tensor tanh x.

(** [sum_upto k f = f 0 + ... + f (k-1)]. *)
Fixpoint sum_upto (k : nat) (f : nat -> R) : R :=
  match k with
  | O => 0
  | S k' => sum_upto k' f + f k'
  end.

(** *** nn.Conv2d(in_channels, out_channels, kernel_size, stride, padding)

    [weight] has sizes [out_channels x in_channels x k x k] and [bias] has
    [out_channels] elements, by construction. *)
Record Conv2d : Type := mkConv2d {
  in_channels : nat;
  out_channels : nat;
  kernel_size : nat;
  stride : nat;
  padding : nat;
  weight : nat -> nat -> nat -> nat -> R;
  bias : nat -> R
}.

(** The input with [p] rows and columns of zeros on every side. *)
Definition zero_padded (x : Tensor R) (p n c a b : nat) : R :=
  if (p <=? a)%nat && (a <? dim2 x + p)%nat && (p <=? b)%nat && (b <? dim3 x + p)%nat
  then item x n c (a - p) (b - p)
  else 0.

Definition conv_out_size (size k s p : nat) : nat := ((size + 2 * p - k) / s + 1)%nat.

Definition conv_item (m : Conv2d) (x : Tensor R) (n co i j : nat) : R :=
  bias m co +
  sum_upto (in_channels m) (fun ci =>
    sum_upto (kernel_size m) (fun ki =>
      sum_upto (kernel_size m) (fun kj =>
        weight m co ci ki kj *
        zero_padded x (padding m) n ci (i * stride m + ki) (j * stride m + kj)))).

Definition conv_apply (m : Conv2d) (x : Tensor R) : Tensor R :=
  mkTensor (dim0 x) (out_channels m)
    (conv_out_size (dim2 x) (kernel_size m) (stride m) (padding m))
    (conv_out_size (dim3 x) (kernel_size m) (stride m) (padding m))
    (conv_item m x).

Definition Conv2d_forward (m : Conv2d) (x : Tensor R) : result (Tensor R) :=
  if (stride m =? 0)%nat then Err ConvBadStride
  else if negb (dim1 x =? in_channels m)%nat
  then Err (ConvChannelMismatch (in_channels m) (dim1 x))
  else if (dim2 x + 2 * padding m <? kernel_size m)%nat
  then Err (ConvKernelTooLarge (dim2 x + 2 * padding m) (kernel_size m))
  else if (dim3 x + 2 * padding m <? kernel_size m)%nat
  then Err (ConvKernelTooLarge (dim3 x + 2 * padding m) (kernel_size m))
  else Ok (conv_apply m x).

(** *** F.grid_sample(input, grid): bilinear, zeros outside the input

    [align_corners] is the library's default for the flag, which the source
    leaves unset. *)

Definition unnormalize (align_corners : bool) (coord : R) (size : nat) : R :=
  if align_corners then (coord + 1) / 2 * (INR size - 1)
  else ((coord + 1) * INR size - 1) / 2.

Definition within_bounds (x : Tensor R) (iy ix : Z) : bool :=
  (0 <=? iy)%Z && (iy <? Z.of_nat (dim2 x))%Z &&
  (0 <=? ix)%Z && (ix <? Z.of_nat (dim3 x))%Z.

Definition safe_get (x : Tensor R) (n c : nat) (iy ix : Z) : R :=
  if within_bounds x iy ix then item x n c (Z.to_nat iy) (Z.to_nat ix) else 0.

Definition bilinear (x : Tensor R) (n c : nat) (ix iy : R) : R :=
  let ix_nw := Zfloor ix in
  let iy_nw := Zfloor iy in
  let ix_se := (ix_nw + 1)%Z in
  let iy_se := (iy_nw + 1)%Z in
  let nw := (IZR ix_se - ix) * (IZR iy_se - iy) in
  let ne := (ix - IZR ix_nw) * (IZR iy_se - iy) in
  let sw := (IZR ix_se - ix) * (iy - IZR iy_nw) in
  let se := (ix - IZR ix_nw) * (iy - IZR iy_nw) in
  safe_get x n c iy_nw ix_nw * nw + safe_get x n c iy_nw ix_se * ne +
  safe_get x n c iy_se ix_nw * sw + safe_get x n c iy_se ix_se * se.

Definition grid_sample_item (align_corners : bool) (input grid : Tensor R)
  (n c h w : nat) : R :=
  bilinear input n c
    (unnormalize align_corners (item grid n h w 0%nat) (dim3 input))
    (unnormalize align_corners (item grid n h w 1%nat) (dim2 input)).

Definition F_grid_sample (align_corners : bool) (input grid : Tensor R)
  : result (Tensor R) :=
  if negb (dim0 input =? dim0 grid)%nat
  then Err (GridSampleBatch (dim0 input) (dim0 grid))
  else if negb (dim3 grid =? 2)%nat then Err (GridSampleLastDim (dim3 grid))
  else if (dim2 input =? 0)%nat || (dim3 input =? 0)%nat then Err GridSampleEmptyInput
  else Ok (mkTensor (dim0 input) (dim1 input) (dim1 grid) (dim2 grid)
             (grid_sample_item align_corners input grid)).

(** *** a + b, with broadcasting *)

Definition broadcast_dim (d a b : nat) : result nat :=
  if (a =? b)%nat then Ok a
  else if (a =? 1)%nat then Ok b
  else if (b =? 1)%nat then Ok a
  else Err (BroadcastMismatch d a b).

(** A size-1 axis is read at index 0 whatever the output index. *)
Definition bidx (size i : nat) : nat := if (size =? 1)%nat then 0%nat else i.

Definition tensor_add (a b : Tensor R) : result (Tensor R) :=
  d3 <- broadcast_dim 3 (dim3 a) (dim3 b) ;;
  d2 <- broadcast_dim 2 (dim2 a) (dim2 b) ;;
  d1 <- broadcast_dim 1 (dim1 a) (dim1 b) ;;
  d0 <- broadcast_dim 0 (dim0 a) (dim0 b) ;;
  Ok (mkTensor d0 d1 d2 d3
        (fun n c h w =>
           item a (bidx (dim0 a) n) (bidx (dim1 a) c) (bidx (dim2 a) h) (bidx (dim3 a) w) +
           item b (bidx (dim0 b) n) (bidx (dim1 b) c) (bidx (dim2 b) h) (bidx (dim3 b) w))).

(** Learned parameters of one convolution; the constructor draws them at
    random, here they are given. *)
Record Params : Type := mkParams {
  p_weight : nat -> nat -> nat -> nat -> R;
  p_bias : nat -> R
}.

Definition nn_Conv2d (cin cout k s p : nat) (theta : Params) : Conv2d :=
  mkConv2d cin cout k s p (p_weight theta) (p_bias theta).

Record Params5 : Type := mkParams5 {
  theta1 : Params;
  theta2 : Params;
  theta3 : Params;
  theta4 : Params;
  theta5 : Params
}.

Close Scope R_scope.

(** ** class _CoarseFlow *)

Module _CoarseFlow.

Record t : Type := mk {
  channel : nat;
  conv1 : Conv2d;
  conv2 : Conv2d;
  conv3 : Conv2d;
  conv4 : Conv2d;
  conv5 : Conv2d;
  pix : nat
}.

Definition init (input_channel : nat) (theta : Params5) : t :=
  mk input_channel
     (nn_Conv2d (input_channel * 2) 24 5 2 2 (theta1 theta))
     (nn_Conv2d 24 24 3 1 1 (theta2 theta))
     (nn_Conv2d 24 24 5 2 2 (theta3 theta))
     (nn_Conv2d 24 24 3 1 1 (theta4 theta))
     (nn_Conv2d 24 32 3 1 1 (theta5 theta))
     4.

Definition forward (self : t) (frame_t frame_tp1 : Tensor R) : result (Tensor R) :=
  input <- torch_cat_dim1 frame_t [frame_tp1] ;;
  x1 <- Conv2d_forward (conv1 self) input ;;
  x2 <- Conv2d_forward (conv2 self) (F_relu x1) ;;
  x3 <- Conv2d_forward (conv3 self) (F_relu x2) ;;
  x4 <- Conv2d_forward (conv4 self) (F_relu x3) ;;
  x5 <- Conv2d_forward (conv5 self) (F_relu x4) ;;
  PixelShuffle_forward (pix self) (F_tanh x5).

End _CoarseFlow.

(** ** class _FineFlow *)

Module _FineFlow.

Record t : Type := mk {
  channel : nat;
  conv1 : Conv2d;
  conv2 : Conv2d;
  conv3 : Conv2d;
  conv4 : Conv2d;
  conv5 : Conv2d;
  pix : nat
}.

Definition init (input_channel : nat) (theta : Params5) : t :=
  mk input_channel
     (nn_Conv2d (input_channel * 3 + 2) 24 5 2 2 (theta1 theta))
     (nn_Conv2d 24 24 3 1 1 (theta2 theta))
     (nn_Conv2d 24 24 3 1 1 (theta3 theta))
     (nn_Conv2d 24 24 3 1 1 (theta4 theta))
     (nn_Conv2d 24 8 3 1 1 (theta5 theta))
     2.

Definition forward (self : t) (frame_t frame_tp1 flow coarse_frame_tp1 : Tensor R)
  : result (Tensor R) :=
  input <- torch_cat_dim1 frame_t [frame_tp1; flow; coarse_frame_tp1] ;;
  x1 <- Conv2d_forward (conv1 self) input ;;
  x2 <- Conv2d_forward (conv2 self) (F_relu x1) ;;
  x3 <- Conv2d_forward (conv3 self) (F_relu x2) ;;
  x4 <- Conv2d_forward (conv4 self) (F_relu x3) ;;
  x5 <- Conv2d_forward (conv5 self) (F_relu x4) ;;
  PixelShuffle_forward (pix self) (F_tanh x5).

End _FineFlow.

(** ** class Warp *)

Module Warp.

Record t : Type := mk { }.

Definition init : t := mk.

Definition forward (align_corners : bool) (self : t) (frame_t flow_field : Tensor R)
  : result (Tensor R) :=
  grid <- permute flow_field [0; 2; 3; 1] ;;
  F_grid_sample align_corners frame_t grid.

End Warp.

(** ** class FlowField *)

Module FlowField.

Record t : Type := mk {
  coarse_net : _CoarseFlow.t;
  fine_net : _FineFlow.t;
  warp : Warp.t
}.

(** [_CoarseFlow()] and [_FineFlow()] take the default [input_channel=1]. *)
Definition init (theta_coarse theta_fine : Params5) : t :=
  mk (_CoarseFlow.init 1 theta_coarse) (_FineFlow.init 1 theta_fine) Warp.init.

Definition forward (align_corners : bool) (self : t) (frame_t frame_tp1 : Tensor R)
  : result (Tensor R) :=
  coarse_flow <- _CoarseFlow.forward (coarse_net self) frame_t frame_tp1 ;;
  coarse_frame_tp1 <- Warp.forward align_corners (warp self) frame_t coarse_flow ;;
  fine <- _FineFlow.forward (fine_net self) frame_t frame_tp1 coarse_flow coarse_frame_tp1 ;;
  tensor_add fine coarse_flow.

End FlowField.

(** Kernel size, stride and number of output channels of a convolution. *)
Definition layer_spec (m : Conv2d) : nat * nat * nat :=
  (kernel_size m, stride m, out_channels m).

(** Two runs agree: the same error, or tensors with the same sizes and the
    same elements inside them. *)
Definition result_eq {A} (r r' : result (Tensor A)) : Prop :=
  match r, r' with
  | Ok a, Ok a' => tensor_eq a a'
  | Err e, Err e' => e = e'
  | _, _ => False
  end.

(** The sizes of a returned tensor, or the error raised. *)
Definition result_shape {A} (r : result (Tensor A)) : result (nat * nat * nat * nat) :=
  x <- r ;; Ok (shape x).

Definition in_unit_interval (v : R) : Prop := (-1 <= v <= 1)%R.

(** ** Reference formulas, used in the statements *)

(** Pixel [(iy, ix)] of image [(n, c)], and 0 outside the image. *)
Definition pixel_or_zero (x : Tensor R) (n c : nat) (iy ix : Z) : R :=
  if (0 <=? iy)%Z && (iy <? Z.of_nat (dim2 x))%Z &&
     (0 <=? ix)%Z && (ix <? Z.of_nat (dim3 x))%Z
  then item x n c (Z.to_nat iy) (Z.to_nat ix)
  else 0%R.

(** Bilinear interpolation inside the cell whose upper left corner is the
    pixel [(y0, x0)], at the offsets [s] to the right and [t] down. *)
Definition bilinear_in_cell (x : Tensor R) (n c : nat) (x0 y0 : Z) (s t : R) : R :=
  ((1 - s) * (1 - t) * pixel_or_zero x n c y0 x0 +
   s * (1 - t) * pixel_or_zero x n c y0 (x0 + 1) +
   (1 - s) * t * pixel_or_zero x n c (y0 + 1) x0 +
   s * t * pixel_or_zero x n c (y0 + 1) (x0 + 1))%R.

(** [sum_over k f] is the sum of [f 0], ..., [f (k-1)]. *)
Definition sum_over (k : nat) (f : nat -> R) : R :=
  fold_right Rplus 0%R (map f (seq 0 k)).

(** The cross-correlation of the library's documentation: output element
    [(n, co, i, j)] of a convolution with kernel [k], stride [s] and [p]
    rows and columns of zeros around the [cin] channels of the input. *)
Definition cross_correlation (k s p cin : nat) (theta : Params) (x : Tensor R)
  (n co i j : nat) : R :=
  (p_bias theta co +
   sum_over cin (fun ci =>
     sum_over k (fun ki =>
       sum_over k (fun kj =>
         p_weight theta co ci ki kj *
         pixel_or_zero x n ci (Z.of_nat (i * s + ki) - Z.of_nat p)
                              (Z.of_nat (j * s + kj) - Z.of_nat p)))))%R.

(** ** Concrete tensors used in the examples *)

Definition full (N C H W : nat) (v : R) : Tensor R :=
  mkTensor N C H W (fun _ _ _ _ => v).

Definition zeros (N C H W : nat) : Tensor R := full N C H W 0%R.

(** A 9 x 9 image whose value is its row number. *)
Definition ramp9 : Tensor R := mkTensor 1 1 9 9 (fun _ _ h _ => INR h).

(** The normalized coordinate of the centre of pixel [i] on an axis of
    [size] pixels, and the sampling grid that holds it at every pixel. *)
Definition identity_coord (align_corners : bool) (size i : nat) : R :=
  if align_corners then (2 * INR i / (INR size - 1) - 1)%R
  else ((2 * INR i + 1) / INR size - 1)%R.

Definition identity_grid (align_corners : bool) (N H W : nat) : Tensor R :=
  mkTensor N 2 H W
    (fun _ c h w =>
       if (c =? 0)%nat then identity_coord align_corners W w
       else identity_coord align_corners H h).

Definition zero_params : Params := mkParams (fun _ _ _ _ => 0%R) (fun _ => 0%R).

Definition zero_params5 : Params5 :=
  mkParams5 zero_params zero_params zero_params zero_params zero_params.

(** [y] has the batch size, height and width of [x]. *)
Definition same_image_sizes {A} (x y : Tensor A) : Prop :=
  dim0 y = dim0 x /\ dim2 y = dim2 x /\ dim3 y = dim3 x.

(** All weights 0 and all biases 1. *)
Definition unit_bias_params : Params := mkParams (fun _ _ _ _ => 0%R) (fun _ => 1%R).

Definition unit_bias_params5 : Params5 :=
  mkParams5 zero_params zero_params zero_params zero_params unit_bias_params.

(** A 3 x 3 convolution, stride 1, padding 1, all weights 1, no bias. *)
Definition box3 : Conv2d :=
  mkConv2d 1 1 3 1 1 (fun _ _ _ _ => 1%R) (fun _ => 0%R).

(** [1 x 4 x 1 x 2], element [(0, c, 0, w)] is [10 c + w]. *)
Definition four_channels : Tensor nat :=
  mkTensor 1 4 1 2 (fun _ c _ w => 10 * c + w).

(** A single row, as a [1 x 1 x 1 x 1] tensor. *)
Definition one_row : Tensor nat := of_rows 0 [[7]].

Definition three_rows : Tensor nat := of_rows 0 [[1; 2]; [3; 4]; [5; 6]].

(** * The primitives on small inputs *)

Example pixel_shuffle_four_channels :
  match PixelShuffle_forward 2 four_channels with
  | Ok t => tolist t
  | Err _ => []
  end = [[[[0; 10; 1; 11]; [20; 30; 21; 31]]]].
Proof. reflexivity. Qed.

Example permute_four_channels :
  match permute four_channels [0; 2; 3; 1] with
  | Ok t => tolist t
  | Err _ => []
  end = [[[[0; 10; 20; 30]; [1; 11; 21; 31]]]].
Proof. reflexivity. Qed.

Example cat_three_rows :
  match torch_cat_dim1 three_rows [three_rows] with
  | Ok t => tolist t
  | Err _ => []
  end = [[[[1; 2]; [3; 4]; [5; 6]]; [[1; 2]; [3; 4]; [5; 6]]]].
Proof. reflexivity. Qed.

Example cat_rejects_other_height :
  result_shape (torch_cat_dim1 three_rows [one_row]) = Err (CatSizeMismatch 2 3 1).
Proof. reflexivity. Qed.

Example box3_on_ones :
  result_shape (Conv2d_forward box3 (full 1 1 3 3 1%R)) = Ok (1, 1, 3, 3) /\
  item (conv_apply box3 (full 1 1 3 3 1%R)) 0 0 1 1 = 9%R /\
  item (conv_apply box3 (full 1 1 3 3 1%R)) 0 0 0 0 = 4%R /\
  item (conv_apply box3 (full 1 1 3 3 1%R)) 0 0 2 1 = 6%R.
Proof.
  split; [reflexivity|].
  repeat split; cbn [conv_apply item]; unfold conv_item, zero_padded; cbn; lra.
Qed.

Example broadcast_row_plus_image :
  result_shape (tensor_add (full 1 1 1 4 1%R) (full 2 3 5 4 1%R)) = Ok (2, 3, 5, 4) /\
  result_shape (tensor_add (full 1 1 2 4 1%R) (full 2 3 5 4 1%R))
  = Err (BroadcastMismatch 2 2 5).
Proof. split; reflexivity. Qed.

(** * Padding adapter *)

Example pad_three_rows :
  match Pad67to68.forward Pad67to68.init three_rows with
  | Ok t => tolist t
  | Err _ => []
  end = [[[[1; 2]; [3; 4]; [5; 6]; [3; 4]]]].
Proof. reflexivity. Qed.

Lemma reflect_index_inside size i : i < size -> reflect_index 0 size i = i.
Proof.
  intro Hi. unfold reflect_index. simpl.
  rewrite Nat.sub_0_r.
  destruct (Nat.ltb_spec i size); [reflexivity | lia].
Qed.

Lemma reflect_index_bottom size : 2 <= size -> reflect_index 0 size size = size - 2.
Proof.
  intro Hs. unfold reflect_index. simpl.
  rewrite Nat.sub_0_r.
  destruct (Nat.ltb_spec size size); lia.
Qed.

Lemma Pad67to68_forward_ok A (x : Tensor A) :
  1 <= dim1 x -> 2 <= dim2 x -> 1 <= dim3 x ->
  Pad67to68.forward Pad67to68.init x =
  Ok (mkTensor (dim0 x) (dim1 x) (dim2 x + 0 + 1) (dim3 x + 0 + 0)
        (fun n c h w =>
           item x n c (reflect_index 0 (dim2 x) h) (reflect_index 0 (dim3 x) w))).
Proof.
  intros HC HH HW.
  unfold Pad67to68.forward, ReflectionPad2d_forward. simpl.
  destruct (Nat.eqb_spec (dim1 x) 0); [lia|].
  destruct (Nat.eqb_spec (dim2 x) 0); [lia|].
  destruct (Nat.eqb_spec (dim3 x) 0); [lia|].
  simpl.
  destruct (Nat.leb_spec (dim3 x) 0); [lia|].
  destruct (Nat.leb_spec (dim2 x) 0); [lia|].
  destruct (Nat.leb_spec (dim2 x) 1); [lia|].
  reflexivity.
Qed.

Lemma Pad67to68_forward_one_row A (x : Tensor A) e :
  dim2 x = 1 -> Pad67to68.forward Pad67to68.init x <> Ok e.
Proof.
  intros HH.
  unfold Pad67to68.forward, ReflectionPad2d_forward. simpl.
  rewrite HH. simpl.
  destruct (dim1 x =? 0); simpl; [discriminate|].
  destruct (dim3 x =? 0); simpl; [discriminate|].
  destruct (dim3 x <=? 0); discriminate.
Qed.

Lemma reflect_index_in_range size i :
  2 <= size -> i < size + 1 -> reflect_index 0 size i < size.
Proof.
  intros Hs Hi.
  destruct (Nat.eq_dec i size) as [->|Hne].
  - rewrite reflect_index_bottom by assumption. lia.
  - rewrite reflect_index_inside by lia. lia.
Qed.

Lemma row_ext A (a b : Tensor A) n c h h' :
  dim3 a = dim3 b ->
  (forall w, w < dim3 a -> item a n c h w = item b n c h' w) ->
  row a n c h = row b n c h'.
Proof.
  intros Hd Hi. unfold row. rewrite <- Hd.
  apply map_ext_in. intros w Hw. apply in_seq in Hw. apply Hi. lia.
Qed.

(** C3 (as amended): on an input of shape (N,C,H,W) with at least two rows
    (and at least one channel and one column) the padding adapter returns a
    tensor of shape (N,C,H+1,W); its first H rows are the rows of the input
    and the added bottom row is row H-2 of the input, the mirror image of
    the rows about the last one, which is not repeated.  The result is
    determined by the elements of the input: equal inputs give equal
    outputs. *)
Theorem Pad67to68_reflects_about_last_row A (x : Tensor A) :
  1 <= dim1 x -> 2 <= dim2 x -> 1 <= dim3 x ->
  exists out,
    Pad67to68.forward Pad67to68.init x = Ok out /\
    shape out = (dim0 x, dim1 x, dim2 x + 1, dim3 x) /\
    (forall n c h, h < dim2 x -> row out n c h = row x n c h) /\
    (forall n c, row out n c (dim2 x) = row x n c (dim2 x - 2)) /\
    (forall y, tensor_eq x y ->
       exists out', Pad67to68.forward Pad67to68.init y = Ok out' /\
                    tensor_eq out out').
Proof.
  intros HC HH HW.
  eexists. split; [apply Pad67to68_forward_ok; assumption|].
  split; [unfold shape; simpl; f_equal; [f_equal|]; lia|].
  split; [|split].
  - intros n c h Hh. apply row_ext; simpl; [lia|].
    intros w Hw. rewrite !reflect_index_inside by lia. reflexivity.
  - intros n c. apply row_ext; simpl; [lia|].
    intros w Hw. rewrite reflect_index_bottom by assumption.
    rewrite reflect_index_inside by lia. reflexivity.
  - intros y [Hs Hi]. unfold shape in Hs.
    injection Hs as H0 H1 H2 H3.
    eexists. split; [apply Pad67to68_forward_ok; lia|].
    split; [unfold shape; simpl; congruence|].
    intros n c h w (Hn & Hc & Hh & Hw). simpl in *.
    rewrite <- H2, <- H3. apply Hi.
    repeat split; try assumption.
    + apply reflect_index_in_range; lia.
    + rewrite reflect_index_inside by lia. lia.
Qed.

Lemma Pad67to68_reflects_witness :
  exists out,
    Pad67to68.forward Pad67to68.init three_rows = Ok out /\
    shape out = (1, 1, 3 + 1, 2) /\
    (forall n c h, h < 3 -> row out n c h = row three_rows n c h) /\
    (forall n c, row out n c 3 = row three_rows n c (3 - 2)) /\
    (forall y, tensor_eq three_rows y ->
       exists out', Pad67to68.forward Pad67to68.init y = Ok out' /\
                    tensor_eq out out').
Proof.
  apply (@Pad67to68_reflects_about_last_row nat three_rows); simpl; lia.
Defined.

(** C3 fails as stated: a tensor with exactly one row is rejected, nothing
    of shape (N,C,H+1,W) is returned. *)
Lemma Pad67to68_one_row_rejected :
  shape one_row = (1, 1, 1, 1) /\
  Pad67to68.forward Pad67to68.init one_row = Err (PadTooLarge 1 1) /\
  ~ exists out, Pad67to68.forward Pad67to68.init one_row = Ok out /\
                shape out = (1, 1, 1 + 1, 1).
Proof.
  split; [reflexivity|]. split; [reflexivity|].
  intros [out [H _]]. discriminate H.
Qed.

(** C9 (as amended): at least two rows, with at least one channel and one
    column, are sufficient for the padding adapter to succeed; the batch
    size is free. *)
Theorem Pad67to68_succeeds_from_two_rows A (x : Tensor A) :
  1 <= dim1 x -> 2 <= dim2 x -> 1 <= dim3 x ->
  succeeds (Pad67to68.forward Pad67to68.init x).
Proof.
  intros HC HH HW. eexists. apply Pad67to68_forward_ok; assumption.
Qed.

Lemma Pad67to68_succeeds_witness :
  succeeds (Pad67to68.forward Pad67to68.init three_rows).
Proof.
  apply (@Pad67to68_succeeds_from_two_rows nat three_rows); simpl; lia.
Defined.

(** C9 fails as stated: one row is not enough. *)
Lemma Pad67to68_one_row_fails :
  1 <= dim2 one_row /\ ~ succeeds (Pad67to68.forward Pad67to68.init one_row).
Proof.
  split; [simpl; lia|].
  intros [out H]. discriminate H.
Qed.

(** * Primitives: when they succeed and what they return *)

Arguments conv_out_size : simpl never.

Lemma conv_out_size_pos size k s p : 1 <= conv_out_size size k s p.
Proof. unfold conv_out_size. lia. Qed.

Lemma conv_out_size_5_2_2 size : 1 <= size -> conv_out_size size 5 2 2 = (size + 1) / 2.
Proof.
  intro H. unfold conv_out_size.
  replace (size + 2 * 2 - 5) with (size - 1) by lia.
  replace (size + 1) with (size - 1 + 1 * 2) by lia.
  rewrite Nat.div_add by lia. reflexivity.
Qed.

Lemma conv_out_size_3_1_1 size : 1 <= size -> conv_out_size size 3 1 1 = size.
Proof.
  intro H. unfold conv_out_size.
  rewrite Nat.div_1_r. lia.
Qed.

Lemma Conv2d_forward_ok m x :
  stride m <> 0 ->
  dim1 x = in_channels m ->
  kernel_size m <= dim2 x + 2 * padding m ->
  kernel_size m <= dim3 x + 2 * padding m ->
  Conv2d_forward m x = Ok (conv_apply m x).
Proof.
  intros Hs Hc Hh Hw. unfold Conv2d_forward.
  destruct (Nat.eqb_spec (stride m) 0); [contradiction|].
  destruct (Nat.eqb_spec (dim1 x) (in_channels m)); [|contradiction]. cbn [negb].
  destruct (Nat.ltb_spec (dim2 x + 2 * padding m) (kernel_size m)); [lia|].
  destruct (Nat.ltb_spec (dim3 x + 2 * padding m) (kernel_size m)); [lia|].
  reflexivity.
Qed.

Lemma Conv2d_forward_inv m x y :
  Conv2d_forward m x = Ok y ->
  y = conv_apply m x /\
  dim1 x = in_channels m /\
  kernel_size m <= dim2 x + 2 * padding m /\
  kernel_size m <= dim3 x + 2 * padding m.
Proof.
  unfold Conv2d_forward.
  destruct (stride m =? 0); [discriminate|].
  destruct (Nat.eqb_spec (dim1 x) (in_channels m)); cbn [negb]; [|discriminate].
  destruct (Nat.ltb_spec (dim2 x + 2 * padding m) (kernel_size m)); [discriminate|].
  destruct (Nat.ltb_spec (dim3 x + 2 * padding m) (kernel_size m)); [discriminate|].
  intro E. injection E as <-. repeat split; assumption.
Qed.

Lemma Conv2d_forward_channels m x :
  stride m <> 0 ->
  dim1 x <> in_channels m ->
  Conv2d_forward m x = Err (ConvChannelMismatch (in_channels m) (dim1 x)).
Proof.
  intros Hs Hc. unfold Conv2d_forward.
  destruct (Nat.eqb_spec (stride m) 0); [contradiction|].
  destruct (Nat.eqb_spec (dim1 x) (in_channels m)); [contradiction|].
  reflexivity.
Qed.

Lemma cat_check_ok A (a b : Tensor A) :
  dim0 b = dim0 a -> dim2 b = dim2 a -> dim3 b = dim3 a ->
  cat_check a b = Ok tt.
Proof.
  intros H0 H2 H3. unfold cat_check.
  rewrite H0, H2, H3, !Nat.eqb_refl. reflexivity.
Qed.

Lemma cat_check_inv A (a b : Tensor A) u :
  cat_check a b = Ok u ->
  dim0 b = dim0 a /\ dim2 b = dim2 a /\ dim3 b = dim3 a.
Proof.
  unfold cat_check.
  destruct (Nat.eqb_spec (dim0 b) (dim0 a)); simpl; [|discriminate].
  destruct (Nat.eqb_spec (dim2 b) (dim2 a)); simpl; [|discriminate].
  destruct (Nat.eqb_spec (dim3 b) (dim3 a)); simpl; [|discriminate].
  intros _. repeat split; assumption.
Qed.

Lemma PixelShuffle_forward_ok A r (x : Tensor A) :
  r <> 0 -> dim1 x mod (r * r) = 0 ->
  PixelShuffle_forward r x = Ok (pixel_shuffle_apply r x).
Proof.
  intros Hr Hm. unfold PixelShuffle_forward.
  destruct (Nat.eqb_spec r 0); [contradiction|].
  rewrite Hm. reflexivity.
Qed.

(** Pixel shuffle is shape-exact. *)
Lemma PixelShuffle_shape A r (x : Tensor A) N Co H W :
  r <> 0 -> shape x = (N, r * r * Co, H, W) ->
  exists y, PixelShuffle_forward r x = Ok y /\ shape y = (N, Co, r * H, r * W).
Proof.
  intros Hr Hs. unfold shape in Hs. injection Hs as H0 H1 H2 H3.
  exists (pixel_shuffle_apply r x). split.
  - apply PixelShuffle_forward_ok; [assumption|].
    rewrite H1, Nat.mul_comm. apply Nat.Div0.mod_mul.
  - unfold shape. simpl. rewrite H0, H1, H2, H3.
    rewrite (Nat.mul_comm (r * r) Co), Nat.div_mul by nia.
    f_equal; [f_equal|]; lia.
Qed.

(** Pixel shuffle only rearranges: each element of the result inside the
    sizes is an element of the argument inside the sizes. *)
Lemma pixel_shuffle_reads_inside A r (x : Tensor A) n c h w :
  r <> 0 -> dim1 x mod (r * r) = 0 ->
  in_range (pixel_shuffle_apply r x) n c h w ->
  in_range x n (c * (r * r) + (h mod r) * r + w mod r) (h / r) (w / r).
Proof.
  intros Hr Hm (Hn & Hc & Hh & Hw). simpl in *.
  repeat split.
  - assumption.
  - assert (Hrr : r * r <> 0) by nia.
    pose proof (Nat.div_mod_eq (dim1 x) (r * r)) as E. rewrite Hm in E.
    pose proof (Nat.mod_upper_bound h r Hr).
    pose proof (Nat.mod_upper_bound w r Hr).
    assert (S c <= dim1 x / (r * r)) by lia.
    assert ((h mod r) * r + w mod r < r * r) by nia.
    nia.
  - apply Nat.Div0.div_lt_upper_bound; lia.
  - apply Nat.Div0.div_lt_upper_bound; lia.
Qed.

(** * The reference formulas and the embedding agree *)

Lemma sum_upto_ext k f g :
  (forall i, i < k -> f i = g i) -> sum_upto k f = sum_upto k g.
Proof.
  induction k as [|k IH]; intro H; cbn; [reflexivity|].
  rewrite IH by (intros; apply H; lia). rewrite H by lia. reflexivity.
Qed.

Lemma fold_right_Rplus_shift a l :
  fold_right Rplus a l = (fold_right Rplus 0 l + a)%R.
Proof. induction l as [|v l IH]; cbn; [lra | rewrite IH; lra]. Qed.

Lemma sum_upto_over k f : sum_upto k f = sum_over k f.
Proof.
  unfold sum_over. induction k as [|k IH]; [reflexivity|].
  cbn [sum_upto]. rewrite seq_S, map_app, fold_right_app, IH. cbn [map fold_right plus].
  rewrite (fold_right_Rplus_shift (f k + 0)). lra.
Qed.

Lemma zero_padded_pixel (x : Tensor R) p n c a b :
  zero_padded x p n c a b
  = pixel_or_zero x n c (Z.of_nat a - Z.of_nat p) (Z.of_nat b - Z.of_nat p).
Proof.
  unfold zero_padded, pixel_or_zero.
  destruct (Nat.leb_spec p a), (Nat.ltb_spec a (dim2 x + p)),
           (Nat.leb_spec p b), (Nat.ltb_spec b (dim3 x + p));
    cbn [andb];
    repeat match goal with
    | |- context [(?u <=? ?v)%Z] => destruct (Z.leb_spec u v); try lia
    | |- context [(?u <? ?v)%Z] => destruct (Z.ltb_spec u v); try lia
    end; cbn [andb]; try reflexivity.
  f_equal; lia.
Qed.

Lemma conv_item_cross_correlation m (x : Tensor R) n co i j :
  conv_item m x n co i j
  = cross_correlation (kernel_size m) (stride m) (padding m) (in_channels m)
      (mkParams (weight m) (bias m)) x n co i j.
Proof.
  unfold conv_item, cross_correlation. cbn [p_weight p_bias].
  f_equal. rewrite <- sum_upto_over. apply sum_upto_ext. intros ci _.
  rewrite <- sum_upto_over. apply sum_upto_ext. intros ki _.
  rewrite <- sum_upto_over. apply sum_upto_ext. intros kj _.
  rewrite zero_padded_pixel. reflexivity.
Qed.

Lemma bilinear_cell (x : Tensor R) n c (x0 y0 : Z) (s t : R) :
  (0 <= s < 1)%R -> (0 <= t < 1)%R ->
  bilinear x n c (IZR x0 + s) (IZR y0 + t) = bilinear_in_cell x n c x0 y0 s t.
Proof.
  intros Hs Ht. unfold bilinear. cbv zeta.
  rewrite (@Zfloor_eq x0 (IZR x0 + s)) by lra.
  rewrite (@Zfloor_eq y0 (IZR y0 + t)) by lra.
  rewrite !plus_IZR. unfold bilinear_in_cell.
  change (safe_get x n c) with (pixel_or_zero x n c). ring.
Qed.

Lemma unnormalize_formula ac g size :
  unnormalize ac g size
  = if ac then ((g + 1) / 2 * (INR size - 1))%R
    else (((g + 1) * INR size - 1) / 2)%R.
Proof. reflexivity. Qed.

Lemma nn_Conv2d_cross_correlation cin cout k s p theta (x : Tensor R) n co i j :
  item (conv_apply (nn_Conv2d cin cout k s p theta) x) n co i j
  = cross_correlation k s p cin theta x n co i j.
Proof.
  cbn [conv_apply item]. rewrite conv_item_cross_correlation. reflexivity.
Qed.

(** * The two estimators: when they succeed and what they return *)

Ltac ltb_cases :=
  repeat match goal with
  | |- context [?a <? ?b] => destruct (Nat.ltb_spec a b)
  end.

Ltac conv_bounds :=
  repeat match goal with
  | |- context [conv_out_size ?a ?b ?c ?d] =>
      lazymatch goal with
      | _ : 1 <= conv_out_size a b c d |- _ => fail
      | _ => pose proof (conv_out_size_pos a b c d)
      end
  end.

Ltac conv_side := cbn -[Nat.mul Nat.add Nat.div Nat.modulo]; conv_bounds; first [reflexivity | discriminate | lia].

Ltac conv_step :=
  rewrite Conv2d_forward_ok; [cbn [bind] | conv_side ..].

Lemma coarse_forward_ok C theta a b :
  dim0 b = dim0 a -> dim2 b = dim2 a -> dim3 b = dim3 a ->
  dim1 a + dim1 b = C * 2 -> 1 <= dim2 a -> 1 <= dim3 a ->
  let self := _CoarseFlow.init C theta in
  let x1 := conv_apply (_CoarseFlow.conv1 self) (cat2 a b) in
  let x2 := conv_apply (_CoarseFlow.conv2 self) (F_relu x1) in
  let x3 := conv_apply (_CoarseFlow.conv3 self) (F_relu x2) in
  let x4 := conv_apply (_CoarseFlow.conv4 self) (F_relu x3) in
  let x5 := conv_apply (_CoarseFlow.conv5 self) (F_relu x4) in
  _CoarseFlow.forward self a b = Ok (pixel_shuffle_apply 4 (F_tanh x5)).
Proof.
  intros H0 H2 H3 H1 HH HW. cbv zeta.
  unfold _CoarseFlow.forward, torch_cat_dim1, _CoarseFlow.init.
  cbn [_CoarseFlow.conv1 _CoarseFlow.conv2 _CoarseFlow.conv3 _CoarseFlow.conv4 _CoarseFlow.conv5 _CoarseFlow.pix cat_onto].
  rewrite cat_check_ok by assumption. cbn [bind].
  conv_step. conv_step. conv_step. conv_step. conv_step.
  rewrite PixelShuffle_forward_ok; [reflexivity | discriminate | reflexivity].
Qed.

Lemma coarse_forward_inv C theta a b out :
  _CoarseFlow.forward (_CoarseFlow.init C theta) a b = Ok out ->
  dim0 b = dim0 a /\ dim2 b = dim2 a /\ dim3 b = dim3 a /\
  dim1 a + dim1 b = C * 2 /\ 1 <= dim2 a /\ 1 <= dim3 a.
Proof.
  unfold _CoarseFlow.forward, torch_cat_dim1, _CoarseFlow.init.
  cbn [_CoarseFlow.conv1 cat_onto].
  destruct (cat_check a b) as [u|e] eqn:Ecat; [|discriminate].
  apply cat_check_inv in Ecat. cbn [bind].
  destruct (Conv2d_forward _ (cat2 a b)) as [x1|e] eqn:E1; [|discriminate].
  apply Conv2d_forward_inv in E1. cbn in E1. intros _. lia.
Qed.

Lemma fine_forward_ok C theta a b flow wf :
  dim0 b = dim0 a -> dim2 b = dim2 a -> dim3 b = dim3 a ->
  dim0 flow = dim0 a -> dim2 flow = dim2 a -> dim3 flow = dim3 a ->
  dim0 wf = dim0 a -> dim2 wf = dim2 a -> dim3 wf = dim3 a ->
  dim1 a + dim1 b + dim1 flow + dim1 wf = C * 3 + 2 ->
  1 <= dim2 a -> 1 <= dim3 a ->
  let self := _FineFlow.init C theta in
  let x1 := conv_apply (_FineFlow.conv1 self) (cat2 (cat2 (cat2 a b) flow) wf) in
  let x2 := conv_apply (_FineFlow.conv2 self) (F_relu x1) in
  let x3 := conv_apply (_FineFlow.conv3 self) (F_relu x2) in
  let x4 := conv_apply (_FineFlow.conv4 self) (F_relu x3) in
  let x5 := conv_apply (_FineFlow.conv5 self) (F_relu x4) in
  _FineFlow.forward self a b flow wf = Ok (pixel_shuffle_apply 2 (F_tanh x5)).
Proof.
  intros B0 B2 B3 F0 F2 F3 W0 W2 W3 H1 HH HW. cbv zeta.
  unfold _FineFlow.forward, torch_cat_dim1, _FineFlow.init.
  cbn [_FineFlow.conv1 _FineFlow.conv2 _FineFlow.conv3 _FineFlow.conv4 _FineFlow.conv5 _FineFlow.pix cat_onto].
  rewrite !cat_check_ok by assumption. cbn [bind].
  conv_step. conv_step. conv_step. conv_step. conv_step.
  rewrite PixelShuffle_forward_ok; [reflexivity | discriminate | reflexivity].
Qed.

Lemma fine_forward_inv C theta a b flow wf out :
  _FineFlow.forward (_FineFlow.init C theta) a b flow wf = Ok out ->
  (dim0 b = dim0 a /\ dim2 b = dim2 a /\ dim3 b = dim3 a) /\
  (dim0 flow = dim0 a /\ dim2 flow = dim2 a /\ dim3 flow = dim3 a) /\
  (dim0 wf = dim0 a /\ dim2 wf = dim2 a /\ dim3 wf = dim3 a) /\
  dim1 a + dim1 b + dim1 flow + dim1 wf = C * 3 + 2 /\
  1 <= dim2 a /\ 1 <= dim3 a.
Proof.
  unfold _FineFlow.forward, torch_cat_dim1, _FineFlow.init.
  cbn [_FineFlow.conv1 cat_onto].
  destruct (cat_check a b) as [u|e] eqn:E1; [|discriminate].
  apply cat_check_inv in E1. cbn [bind].
  destruct (cat_check (cat2 a b) flow) as [u'|e] eqn:E2; [|discriminate].
  apply cat_check_inv in E2. cbn [bind].
  destruct (cat_check (cat2 (cat2 a b) flow) wf) as [u''|e] eqn:E3; [|discriminate].
  apply cat_check_inv in E3. cbn [bind].
  destruct (Conv2d_forward _ _) as [x1|e] eqn:E4; [|discriminate].
  apply Conv2d_forward_inv in E4. cbn in E2, E3, E4. intros _. lia.
Qed.

Lemma half_up_bounds n : 1 <= n -> 1 <= (n + 1) / 2 /\ n <= 2 * ((n + 1) / 2) < n + 2.
Proof.
  intro H.
  pose proof (Nat.div_mod_eq (n + 1) 2).
  pose proof (Nat.mod_upper_bound (n + 1) 2). lia.
Qed.

(** C4: on two frames of shape (N,C,H,W) the coarse estimator built for C
    channels concatenates them along the channel axis into (N,2C,H,W),
    applies five convolutions with kernel/stride (5/2, 3/1, 5/2, 3/1, 3/1)
    and widths (24,24,24,24,32), relu (max(0, .) elementwise) after each of the
    first four and tanh (elementwise) after the fifth, each convolution
    being the cross-correlation with its own weights and bias, then pixel
    shuffle by 4, which takes any
    (N', 16*Co, H', W') tensor to (N', Co, 4H', 4W'); the flow field has two
    channels and its height and width are those of the frames rounded up to
    a multiple of 4. *)
Theorem CoarseFlow_forward_architecture C theta (frame_t frame_tp1 : Tensor R) N H W :
  shape frame_t = (N, C, H, W) -> shape frame_tp1 = (N, C, H, W) ->
  1 <= H -> 1 <= W ->
  let self := _CoarseFlow.init C theta in
  let H' := ((H + 1) / 2 + 1) / 2 in
  let W' := ((W + 1) / 2 + 1) / 2 in
  exists input x1 x2 x3 x4 x5 out,
    torch_cat_dim1 frame_t [frame_tp1] = Ok input /\
    shape input = (N, 2 * C, H, W) /\
    (forall n c h w, c < C -> item input n c h w = item frame_t n c h w) /\
    (forall n c h w, C <= c -> item input n c h w = item frame_tp1 n (c - C) h w) /\
    Conv2d_forward (_CoarseFlow.conv1 self) input = Ok x1 /\
    Conv2d_forward (_CoarseFlow.conv2 self) (F_relu x1) = Ok x2 /\
    Conv2d_forward (_CoarseFlow.conv3 self) (F_relu x2) = Ok x3 /\
    Conv2d_forward (_CoarseFlow.conv4 self) (F_relu x3) = Ok x4 /\
    Conv2d_forward (_CoarseFlow.conv5 self) (F_relu x4) = Ok x5 /\
    PixelShuffle_forward 4 (F_tanh x5) = Ok out /\
    _CoarseFlow.forward self frame_t frame_tp1 = Ok out /\
    map layer_spec
      [_CoarseFlow.conv1 self; _CoarseFlow.conv2 self; _CoarseFlow.conv3 self;
       _CoarseFlow.conv4 self; _CoarseFlow.conv5 self]
    = [(5, 2, 24); (3, 1, 24); (5, 2, 24); (3, 1, 24); (3, 1, 32)] /\
    shape x5 = (N, 4 * 4 * 2, H', W') /\
    (forall (x : Tensor R) N' Co Hx Wx,
       shape x = (N', 4 * 4 * Co, Hx, Wx) ->
       exists y, PixelShuffle_forward 4 x = Ok y /\
                 shape y = (N', Co, 4 * Hx, 4 * Wx)) /\
    shape out = (N, 2, 4 * H', 4 * W') /\
    H <= 4 * H' < H + 4 /\ W <= 4 * W' < W + 4 /\
    (forall x : Tensor R,
       shape (F_relu x) = shape x /\
       forall n c h w, item (F_relu x) n c h w = Rmax 0 (item x n c h w)) /\
    (forall x : Tensor R,
       shape (F_tanh x) = shape x /\
       forall n c h w, item (F_tanh x) n c h w = tanh (item x n c h w)) /\
    (forall n co i j,
       item x1 n co i j
       = cross_correlation 5 2 2 (2 * C) (theta1 theta) input n co i j /\
       item x2 n co i j
       = cross_correlation 3 1 1 24 (theta2 theta) (F_relu x1) n co i j /\
       item x3 n co i j
       = cross_correlation 5 2 2 24 (theta3 theta) (F_relu x2) n co i j /\
       item x4 n co i j
       = cross_correlation 3 1 1 24 (theta4 theta) (F_relu x3) n co i j /\
       item x5 n co i j
       = cross_correlation 3 1 1 24 (theta5 theta) (F_relu x4) n co i j) /\
    (forall n c h w,
       item out n c h w
       = tanh (item x5 n (c * 16 + (h mod 4) * 4 + w mod 4) (h / 4) (w / 4))).
Proof.
  intros Ha Hb HH HW self H' W'.
  destruct frame_t as [n0 c0 h0 w0 f], frame_tp1 as [n1 c1 h1 w1 g].
  unfold shape in Ha, Hb. cbn in Ha, Hb.
  injection Ha as -> -> -> ->. injection Hb as -> -> -> ->.
  do 7 eexists.
  split; [unfold torch_cat_dim1; cbn [cat_onto];
          rewrite cat_check_ok by reflexivity; reflexivity|].
  split; [unfold shape; cbn [cat2 dim0 dim1 dim2 dim3];
          replace (C + C) with (2 * C) by lia; reflexivity|].
  split; [intros n c h w Hc; cbn [cat2 item dim1];
          destruct (Nat.ltb_spec c C); [reflexivity | lia]|].
  split; [intros n c h w Hc; cbn [cat2 item dim1];
          destruct (Nat.ltb_spec c C); [lia | reflexivity]|].
  split; [apply Conv2d_forward_ok; conv_side|].
  split; [apply Conv2d_forward_ok; conv_side|].
  split; [apply Conv2d_forward_ok; conv_side|].
  split; [apply Conv2d_forward_ok; conv_side|].
  split; [apply Conv2d_forward_ok; conv_side|].
  split; [apply PixelShuffle_forward_ok; [discriminate | reflexivity]|].
  split; [apply (coarse_forward_ok C theta); cbn; lia|].
  split; [reflexivity|].
  destruct (half_up_bounds HH) as [P1 P2].
  destruct (half_up_bounds HW) as [Q1 Q2].
  destruct (half_up_bounds P1) as [P3 P4].
  destruct (half_up_bounds Q1) as [Q3 Q4].
  assert (E : forall s, 1 <= s ->
     conv_out_size (conv_out_size (conv_out_size (conv_out_size (conv_out_size s 5 2 2) 3 1 1) 5 2 2) 3 1 1) 3 1 1
     = ((s + 1) / 2 + 1) / 2).
  { intros s Hs. destruct (half_up_bounds Hs) as [R1 R2].
    destruct (half_up_bounds R1) as [R3 R4].
    rewrite (conv_out_size_5_2_2 Hs), (conv_out_size_3_1_1 R1),
      (conv_out_size_5_2_2 R1), (conv_out_size_3_1_1 R3), (conv_out_size_3_1_1 R3).
    reflexivity. }
  split; [unfold shape; cbn -[Nat.div Nat.mul Nat.add]; rewrite !E by assumption; reflexivity|].
  split; [intros x N' Co Hx Wx Hs; apply PixelShuffle_shape; [discriminate | exact Hs]|].
  split.
  { unfold shape; cbn -[Nat.div Nat.mul Nat.add]; rewrite !E by assumption.
    fold H' W'. rewrite (Nat.mul_comm H'), (Nat.mul_comm W'). reflexivity. }
  split; [fold H' in P4 |- *; lia|].
  split; [fold W' in Q4 |- *; lia|].
  assert (CIN : 2 * C = C * 2) by lia.
  split; [intro x; split; [reflexivity | intros; reflexivity]|].
  split; [intro x; split; [reflexivity | intros; reflexivity]|].
  split; [|intros n c h w; reflexivity].
  intros n co i j. rewrite CIN.
  repeat split; apply nn_Conv2d_cross_correlation.
Qed.

Lemma CoarseFlow_forward_architecture_witness :
  exists out,
    _CoarseFlow.forward (_CoarseFlow.init 1 zero_params5) (zeros 3 1 6 9) (zeros 3 1 6 9)
    = Ok out /\ shape out = (3, 2, 8, 12).
Proof.
  destruct (@CoarseFlow_forward_architecture 1 zero_params5
              (zeros 3 1 6 9) (zeros 3 1 6 9) 3 6 9
              eq_refl eq_refl ltac:(lia) ltac:(lia))
    as (input & x1 & x2 & x3 & x4 & x5 & out & _ & _ & _ & _ & _ & _ & _ & _ & _ & _
        & Hf & _ & _ & _ & Hs & _).
  exists out. split; [exact Hf | exact Hs].
Defined.

Lemma even_half_up n : 2 * ((n + 1) / 2) = n <-> n mod 2 = 0.
Proof.
  pose proof (Nat.div_mod_eq n 2) as E.
  pose proof (Nat.mod_upper_bound n 2 ltac:(lia)) as B.
  pose proof (Nat.div_mod_eq (n + 1) 2) as E'.
  pose proof (Nat.mod_upper_bound (n + 1) 2 ltac:(lia)) as B'.
  lia.
Qed.

(** C5 (as amended): on two frames of shape (N,C,H,W), a flow field of
    shape (N,2,H,W) and a warped frame of shape (N,C,H,W), the fine
    estimator built for C channels concatenates the four along the channel
    axis into 3C+2 channels, applies five convolutions with kernel/stride
    (5/2, 3/1, 3/1, 3/1, 3/1) and widths (24,24,24,24,8), relu (max(0, .)
    elementwise) after each of the first four and tanh (elementwise) after
    the fifth, each convolution being the cross-correlation with its own
    weights and bias, then pixel shuffle by 2.
    The correction has two channels and its height and width are those of
    the frames rounded up to an even number: it is at input resolution
    exactly when H and W are even. *)
Theorem FineFlow_forward_architecture C theta
  (frame_t frame_tp1 flow coarse_frame_tp1 : Tensor R) N H W :
  shape frame_t = (N, C, H, W) -> shape frame_tp1 = (N, C, H, W) ->
  shape flow = (N, 2, H, W) -> shape coarse_frame_tp1 = (N, C, H, W) ->
  1 <= H -> 1 <= W ->
  let self := _FineFlow.init C theta in
  let H' := (H + 1) / 2 in
  let W' := (W + 1) / 2 in
  exists input x1 x2 x3 x4 x5 out,
    torch_cat_dim1 frame_t [frame_tp1; flow; coarse_frame_tp1] = Ok input /\
    shape input = (N, 3 * C + 2, H, W) /\
    (forall n c h w, c < C -> item input n c h w = item frame_t n c h w) /\
    (forall n c h w, C <= c < 2 * C ->
       item input n c h w = item frame_tp1 n (c - C) h w) /\
    (forall n c h w, 2 * C <= c < 2 * C + 2 ->
       item input n c h w = item flow n (c - 2 * C) h w) /\
    (forall n c h w, 2 * C + 2 <= c ->
       item input n c h w = item coarse_frame_tp1 n (c - (2 * C + 2)) h w) /\
    Conv2d_forward (_FineFlow.conv1 self) input = Ok x1 /\
    Conv2d_forward (_FineFlow.conv2 self) (F_relu x1) = Ok x2 /\
    Conv2d_forward (_FineFlow.conv3 self) (F_relu x2) = Ok x3 /\
    Conv2d_forward (_FineFlow.conv4 self) (F_relu x3) = Ok x4 /\
    Conv2d_forward (_FineFlow.conv5 self) (F_relu x4) = Ok x5 /\
    PixelShuffle_forward 2 (F_tanh x5) = Ok out /\
    _FineFlow.forward self frame_t frame_tp1 flow coarse_frame_tp1 = Ok out /\
    map layer_spec
      [_FineFlow.conv1 self; _FineFlow.conv2 self; _FineFlow.conv3 self;
       _FineFlow.conv4 self; _FineFlow.conv5 self]
    = [(5, 2, 24); (3, 1, 24); (3, 1, 24); (3, 1, 24); (3, 1, 8)] /\
    shape x5 = (N, 2 * 2 * 2, H', W') /\
    shape out = (N, 2, 2 * H', 2 * W') /\
    (shape out = (N, 2, H, W) <-> H mod 2 = 0 /\ W mod 2 = 0) /\
    (forall x : Tensor R,
       shape (F_relu x) = shape x /\
       forall n c h w, item (F_relu x) n c h w = Rmax 0 (item x n c h w)) /\
    (forall x : Tensor R,
       shape (F_tanh x) = shape x /\
       forall n c h w, item (F_tanh x) n c h w = tanh (item x n c h w)) /\
    (forall n co i j,
       item x1 n co i j
       = cross_correlation 5 2 2 (3 * C + 2) (theta1 theta) input n co i j /\
       item x2 n co i j
       = cross_correlation 3 1 1 24 (theta2 theta) (F_relu x1) n co i j /\
       item x3 n co i j
       = cross_correlation 3 1 1 24 (theta3 theta) (F_relu x2) n co i j /\
       item x4 n co i j
       = cross_correlation 3 1 1 24 (theta4 theta) (F_relu x3) n co i j /\
       item x5 n co i j
       = cross_correlation 3 1 1 24 (theta5 theta) (F_relu x4) n co i j) /\
    (forall n c h w,
       item out n c h w
       = tanh (item x5 n (c * 4 + (h mod 2) * 2 + w mod 2) (h / 2) (w / 2))).
Proof.
  intros Ha Hb Hc Hd HH HW self H' W'.
  destruct frame_t as [n0 c0 h0 w0 f], frame_tp1 as [n1 c1 h1 w1 g],
           flow as [n2 c2 h2 w2 u], coarse_frame_tp1 as [n3 c3 h3 w3 v].
  unfold shape in Ha, Hb, Hc, Hd. cbn in Ha, Hb, Hc, Hd.
  injection Ha as -> -> -> ->. injection Hb as -> -> -> ->.
  injection Hc as -> -> -> ->. injection Hd as -> -> -> ->.
  do 7 eexists.
  split; [unfold torch_cat_dim1; cbn [cat_onto];
          rewrite !cat_check_ok by reflexivity; reflexivity|].
  split; [unfold shape; cbn [cat2 dim0 dim1 dim2 dim3];
          replace (C + C + 2 + C) with (3 * C + 2) by lia; reflexivity|].
  split; [intros n c h w Hr; cbn [cat2 item dim1];
          ltb_cases; solve [reflexivity | lia]|].
  split; [intros n c h w Hr; cbn [cat2 item dim1];
          ltb_cases; solve [reflexivity | lia]|].
  split; [intros n c h w Hr; cbn [cat2 item dim1];
          ltb_cases; solve [f_equal; lia | lia]|].
  split; [intros n c h w Hr; cbn [cat2 item dim1];
          ltb_cases; solve [f_equal; lia | lia]|].
  split; [apply Conv2d_forward_ok; conv_side|].
  split; [apply Conv2d_forward_ok; conv_side|].
  split; [apply Conv2d_forward_ok; conv_side|].
  split; [apply Conv2d_forward_ok; conv_side|].
  split; [apply Conv2d_forward_ok; conv_side|].
  split; [apply PixelShuffle_forward_ok; [discriminate | reflexivity]|].
  split; [apply (fine_forward_ok C theta); cbn; lia|].
  split; [reflexivity|].
  assert (E : forall s, 1 <= s ->
     conv_out_size (conv_out_size (conv_out_size (conv_out_size (conv_out_size s 5 2 2) 3 1 1) 3 1 1) 3 1 1) 3 1 1
     = (s + 1) / 2).
  { intros s Hs. destruct (half_up_bounds Hs) as [R1 R2].
    rewrite (conv_out_size_5_2_2 Hs), !(conv_out_size_3_1_1 R1). reflexivity. }
  split; [unfold shape; cbn -[Nat.div Nat.mul Nat.add]; rewrite !E by assumption; reflexivity|].
  match goal with
  | |- shape ?out = _ /\ _ => assert (Eout : shape out = (N, 2, 2 * H', 2 * W'))
  end.
  { unfold shape; cbn -[Nat.div Nat.mul Nat.add]; rewrite !E by assumption.
    fold H' W'. rewrite (Nat.mul_comm H'), (Nat.mul_comm W'). reflexivity. }
  split; [exact Eout|].
  split.
  { rewrite Eout. unfold H', W'. rewrite <- !even_half_up.
    split; [intro Q; injection Q; auto | intros [-> ->]; reflexivity]. }
  assert (CIN : 3 * C + 2 = C * 3 + 2) by lia.
  split; [intro x; split; [reflexivity | intros; reflexivity]|].
  split; [intro x; split; [reflexivity | intros; reflexivity]|].
  split; [|intros n c h w; reflexivity].
  intros n co i j. rewrite CIN.
  repeat split; apply nn_Conv2d_cross_correlation.
Qed.

Lemma FineFlow_forward_architecture_witness :
  exists out,
    _FineFlow.forward (_FineFlow.init 1 zero_params5)
      (zeros 3 1 6 8) (zeros 3 1 6 8) (zeros 3 2 6 8) (zeros 3 1 6 8)
    = Ok out /\ shape out = (3, 2, 6, 8).
Proof.
  destruct (@FineFlow_forward_architecture 1 zero_params5
              (zeros 3 1 6 8) (zeros 3 1 6 8) (zeros 3 2 6 8) (zeros 3 1 6 8) 3 6 8
              eq_refl eq_refl eq_refl eq_refl ltac:(lia) ltac:(lia))
    as (input & x1 & x2 & x3 & x4 & x5 & out & _ & _ & _ & _ & _ & _ & _ & _ & _ & _
        & _ & _ & Hf & _ & _ & Hs & _).
  exists out. split; [exact Hf | exact Hs].
Defined.

(** C5 fails as stated: on 3 x 3 frames the correction is 4 x 4, not at
    input resolution. *)
Lemma FineFlow_odd_frames_grow :
  result_shape
    (_FineFlow.forward (_FineFlow.init 1 zero_params5)
       (zeros 1 1 3 3) (zeros 1 1 3 3) (zeros 1 2 3 3) (zeros 1 1 3 3))
  = Ok (1, 2, 4, 4).
Proof. reflexivity. Qed.

(** * The tanh bound *)

Lemma ratio_bound s c : (- c < s < c -> -1 < s / c < 1)%R.
Proof.
  intros [Hl Hu].
  assert (Hc : (0 < c)%R) by lra.
  pose proof (Rinv_0_lt_compat _ Hc) as Hi.
  assert (E : (c * / c = 1)%R) by (apply Rinv_r; lra).
  unfold Rdiv.
  pose proof (Rmult_lt_0_compat (c - s) _ ltac:(lra) Hi).
  pose proof (Rmult_lt_0_compat (s + c) _ ltac:(lra) Hi).
  split; lra.
Qed.

Lemma tanh_bound x : (-1 < tanh x < 1)%R.
Proof.
  unfold tanh, sinh, cosh.
  pose proof (exp_pos x) as Ha. pose proof (exp_pos (- x)) as Hb.
  apply ratio_bound. lra.
Qed.

Lemma F_tanh_in_unit_interval x n c h w : in_unit_interval (item (F_tanh x) n c h w).
Proof. pose proof (tanh_bound (item x n c h w)). unfold in_unit_interval. cbn. lra. Qed.

Lemma coarse_last_layers C theta a b :
  dim0 b = dim0 a -> dim2 b = dim2 a -> dim3 b = dim3 a ->
  dim1 a + dim1 b = C * 2 -> 1 <= dim2 a -> 1 <= dim3 a ->
  let self := _CoarseFlow.init C theta in
  exists x4 x5,
    Conv2d_forward (_CoarseFlow.conv5 self) (F_relu x4) = Ok x5 /\
    dim1 x5 = 32 /\
    PixelShuffle_forward (_CoarseFlow.pix self) (F_tanh x5)
    = Ok (pixel_shuffle_apply 4 (F_tanh x5)) /\
    _CoarseFlow.forward self a b = Ok (pixel_shuffle_apply 4 (F_tanh x5)).
Proof.
  intros H0 H2 H3 H1 HH HW self.
  exists (conv_apply (_CoarseFlow.conv4 self) (F_relu
           (conv_apply (_CoarseFlow.conv3 self) (F_relu
             (conv_apply (_CoarseFlow.conv2 self) (F_relu
               (conv_apply (_CoarseFlow.conv1 self) (cat2 a b)))))))).
  eexists.
  split; [apply Conv2d_forward_ok; conv_side|].
  split; [reflexivity|].
  split; [apply PixelShuffle_forward_ok; [discriminate | reflexivity]|].
  apply (coarse_forward_ok C theta); assumption.
Qed.

Lemma fine_last_layers C theta a b flow wf :
  dim0 b = dim0 a -> dim2 b = dim2 a -> dim3 b = dim3 a ->
  dim0 flow = dim0 a -> dim2 flow = dim2 a -> dim3 flow = dim3 a ->
  dim0 wf = dim0 a -> dim2 wf = dim2 a -> dim3 wf = dim3 a ->
  dim1 a + dim1 b + dim1 flow + dim1 wf = C * 3 + 2 ->
  1 <= dim2 a -> 1 <= dim3 a ->
  let self := _FineFlow.init C theta in
  exists x4 x5,
    Conv2d_forward (_FineFlow.conv5 self) (F_relu x4) = Ok x5 /\
    dim1 x5 = 8 /\
    PixelShuffle_forward (_FineFlow.pix self) (F_tanh x5)
    = Ok (pixel_shuffle_apply 2 (F_tanh x5)) /\
    _FineFlow.forward self a b flow wf = Ok (pixel_shuffle_apply 2 (F_tanh x5)).
Proof.
  intros B0 B2 B3 F0 F2 F3 W0 W2 W3 H1 HH HW self.
  exists (conv_apply (_FineFlow.conv4 self) (F_relu
           (conv_apply (_FineFlow.conv3 self) (F_relu
             (conv_apply (_FineFlow.conv2 self) (F_relu
               (conv_apply (_FineFlow.conv1 self)
                  (cat2 (cat2 (cat2 a b) flow) wf)))))))).
  eexists.
  split; [apply Conv2d_forward_ok; conv_side|].
  split; [reflexivity|].
  split; [apply PixelShuffle_forward_ok; [discriminate | reflexivity]|].
  apply (fine_forward_ok C theta); assumption.
Qed.

Ltac shape_eqs :=
  repeat match goal with
  | H : shape _ = (_, _, _, _) |- _ =>
      unfold shape in H; injection H as ? ? ? ?
  end.

(** C6: in each estimator the tensor that leaves the tanh after the fifth
    convolution, before the pixel shuffle, has every element in [-1,1];
    the estimator's output only rearranges that tensor (each output element
    is a pre-shuffle element), so it is in [-1,1] elementwise as well. *)
Theorem estimators_tanh_bounded C theta_c theta_f
  (frame_t frame_tp1 flow coarse_frame_tp1 : Tensor R) N H W :
  shape frame_t = (N, C, H, W) -> shape frame_tp1 = (N, C, H, W) ->
  shape flow = (N, 2, H, W) -> shape coarse_frame_tp1 = (N, C, H, W) ->
  1 <= H -> 1 <= W ->
  let coarse := _CoarseFlow.init C theta_c in
  let fine := _FineFlow.init C theta_f in
  (exists x4 x5 out,
     Conv2d_forward (_CoarseFlow.conv5 coarse) (F_relu x4) = Ok x5 /\
     PixelShuffle_forward (_CoarseFlow.pix coarse) (F_tanh x5) = Ok out /\
     _CoarseFlow.forward coarse frame_t frame_tp1 = Ok out /\
     all_items in_unit_interval (F_tanh x5) /\
     (forall n c h w, in_range out n c h w ->
        in_range (F_tanh x5) n (c * 16 + (h mod 4) * 4 + w mod 4) (h / 4) (w / 4) /\
        item out n c h w
        = item (F_tanh x5) n (c * 16 + (h mod 4) * 4 + w mod 4) (h / 4) (w / 4)) /\
     all_items in_unit_interval out) /\
  (exists x4 x5 out,
     Conv2d_forward (_FineFlow.conv5 fine) (F_relu x4) = Ok x5 /\
     PixelShuffle_forward (_FineFlow.pix fine) (F_tanh x5) = Ok out /\
     _FineFlow.forward fine frame_t frame_tp1 flow coarse_frame_tp1 = Ok out /\
     all_items in_unit_interval (F_tanh x5) /\
     (forall n c h w, in_range out n c h w ->
        in_range (F_tanh x5) n (c * 4 + (h mod 2) * 2 + w mod 2) (h / 2) (w / 2) /\
        item out n c h w
        = item (F_tanh x5) n (c * 4 + (h mod 2) * 2 + w mod 2) (h / 2) (w / 2)) /\
     all_items in_unit_interval out).
Proof.
  intros Ha Hb Hc Hd HH HW coarse fine. shape_eqs.
  split.
  - destruct (@coarse_last_layers C theta_c frame_t frame_tp1)
      as (x4 & x5 & E5 & Ech & Epix & Efwd); try lia.
    exists x4, x5, (pixel_shuffle_apply 4 (F_tanh x5)).
    split; [exact E5|]. split; [exact Epix|]. split; [exact Efwd|].
    split; [intros n c h w _; apply F_tanh_in_unit_interval|].
    split; [|intros n c h w _; apply F_tanh_in_unit_interval].
    intros n c h w Hr. split; [|reflexivity].
    apply (@pixel_shuffle_reads_inside R 4 (F_tanh x5) n c h w);
      [discriminate | cbn [F_tanh map_tensor dim1]; rewrite Ech; reflexivity | assumption].
  - destruct (@fine_last_layers C theta_f frame_t frame_tp1 flow coarse_frame_tp1)
      as (x4 & x5 & E5 & Ech & Epix & Efwd); try lia.
    exists x4, x5, (pixel_shuffle_apply 2 (F_tanh x5)).
    split; [exact E5|]. split; [exact Epix|]. split; [exact Efwd|].
    split; [intros n c h w _; apply F_tanh_in_unit_interval|].
    split; [|intros n c h w _; apply F_tanh_in_unit_interval].
    intros n c h w Hr. split; [|reflexivity].
    apply (@pixel_shuffle_reads_inside R 2 (F_tanh x5) n c h w);
      [discriminate | cbn [F_tanh map_tensor dim1]; rewrite Ech; reflexivity | assumption].
Qed.

Lemma estimators_tanh_bounded_witness :
  exists out,
    _CoarseFlow.forward (_CoarseFlow.init 1 zero_params5) (zeros 1 1 4 4) (zeros 1 1 4 4)
    = Ok out /\ all_items in_unit_interval out.
Proof.
  destruct (@estimators_tanh_bounded 1 zero_params5 zero_params5
              (zeros 1 1 4 4) (zeros 1 1 4 4) (zeros 1 2 4 4) (zeros 1 1 4 4) 1 4 4
              eq_refl eq_refl eq_refl eq_refl ltac:(lia) ltac:(lia))
    as ((x4 & x5 & out & _ & _ & E & _ & _ & B) & _).
  exists out. split; [exact E | exact B].
Defined.

(** * Warp and the composer *)

(** [flow_field.permute([0, 2, 3, 1])] *)
Lemma permute_0231 A (t : Tensor A) :
  permute t [0; 2; 3; 1]
  = Ok (mkTensor (dim0 t) (dim2 t) (dim3 t) (dim1 t)
          (fun n h w c => item t n c h w)).
Proof. reflexivity. Qed.

Lemma Warp_forward_ok ac self frame flow :
  dim0 frame = dim0 flow -> dim1 flow = 2 -> 1 <= dim2 frame -> 1 <= dim3 frame ->
  Warp.forward ac self frame flow
  = Ok (mkTensor (dim0 frame) (dim1 frame) (dim2 flow) (dim3 flow)
          (fun n c h w =>
             bilinear frame n c
               (unnormalize ac (item flow n 0 h w) (dim3 frame))
               (unnormalize ac (item flow n 1 h w) (dim2 frame)))).
Proof.
  intros H0 H1 HH HW. unfold Warp.forward. rewrite permute_0231. cbn [bind].
  unfold F_grid_sample. cbn [dim0 dim1 dim2 dim3].
  rewrite H0, H1, Nat.eqb_refl. cbn [negb Nat.eqb].
  destruct (Nat.eqb_spec (dim2 frame) 0); [lia|].
  destruct (Nat.eqb_spec (dim3 frame) 0); [lia|].
  reflexivity.
Qed.

Lemma Warp_forward_inv ac self frame flow out :
  Warp.forward ac self frame flow = Ok out ->
  dim0 frame = dim0 flow /\ dim1 flow = 2 /\ 1 <= dim2 frame /\ 1 <= dim3 frame.
Proof.
  unfold Warp.forward. rewrite permute_0231. cbn [bind].
  unfold F_grid_sample. cbn [dim0 dim1 dim2 dim3].
  destruct (Nat.eqb_spec (dim0 frame) (dim0 flow)); cbn [negb]; [|discriminate].
  destruct (Nat.eqb_spec (dim1 flow) 2); cbn [negb]; [|discriminate].
  destruct (Nat.eqb_spec (dim2 frame) 0); cbn [orb]; [discriminate|].
  destruct (Nat.eqb_spec (dim3 frame) 0); [discriminate|].
  intros _. lia.
Qed.

Lemma broadcast_dim_same d a : broadcast_dim d a a = Ok a.
Proof. unfold broadcast_dim. rewrite Nat.eqb_refl. reflexivity. Qed.

Lemma bidx_inside size i : i < size -> bidx size i = i.
Proof.
  intro H. unfold bidx. destruct (Nat.eqb_spec size 1); [lia | reflexivity].
Qed.

(** On tensors of equal sizes [+] does not broadcast. *)
Lemma tensor_add_same_shape a b :
  shape a = shape b ->
  exists out,
    tensor_add a b = Ok out /\ shape out = shape b /\
    forall n c h w, in_range out n c h w ->
      item out n c h w = (item a n c h w + item b n c h w)%R.
Proof.
  intro Hs. unfold shape in Hs. injection Hs as H0 H1 H2 H3.
  unfold tensor_add. rewrite H0, H1, H2, H3, !broadcast_dim_same. cbn [bind].
  eexists. split; [reflexivity|]. split; [reflexivity|].
  intros n c h w (Hn & Hc & Hh & Hw). cbn in *.
  rewrite <- H0, <- H1, <- H2, <- H3 in *.
  rewrite !bidx_inside by assumption. reflexivity.
Qed.

Lemma coarse_chain_size s :
  1 <= s ->
  conv_out_size (conv_out_size (conv_out_size (conv_out_size
    (conv_out_size s 5 2 2) 3 1 1) 5 2 2) 3 1 1) 3 1 1
  = ((s + 1) / 2 + 1) / 2.
Proof.
  intros Hs. destruct (half_up_bounds Hs) as [R1 R2].
  destruct (half_up_bounds R1) as [R3 R4].
  rewrite (conv_out_size_5_2_2 Hs), (conv_out_size_3_1_1 R1),
    (conv_out_size_5_2_2 R1), (conv_out_size_3_1_1 R3), (conv_out_size_3_1_1 R3).
  reflexivity.
Qed.

Lemma fine_chain_size s :
  1 <= s ->
  conv_out_size (conv_out_size (conv_out_size (conv_out_size
    (conv_out_size s 5 2 2) 3 1 1) 3 1 1) 3 1 1) 3 1 1
  = (s + 1) / 2.
Proof.
  intros Hs. destruct (half_up_bounds Hs) as [R1 R2].
  rewrite (conv_out_size_5_2_2 Hs), !(conv_out_size_3_1_1 R1). reflexivity.
Qed.

Lemma coarse_forward_dims C theta a b out :
  _CoarseFlow.forward (_CoarseFlow.init C theta) a b = Ok out ->
  dim0 out = dim0 a /\ dim1 out = 2 /\
  dim2 out = 4 * (((dim2 a + 1) / 2 + 1) / 2) /\
  dim3 out = 4 * (((dim3 a + 1) / 2 + 1) / 2).
Proof.
  intro E. pose proof (coarse_forward_inv _ _ _ _ E) as (H0 & H2 & H3 & H1 & HH & HW).
  rewrite (@coarse_forward_ok C theta a b H0 H2 H3 H1 HH HW) in E.
  injection E as <-.
  cbn -[Nat.div Nat.mul Nat.add]. rewrite !coarse_chain_size by assumption.
  repeat split; lia.
Qed.

Lemma fine_forward_dims C theta a b flow wf out :
  _FineFlow.forward (_FineFlow.init C theta) a b flow wf = Ok out ->
  dim0 out = dim0 a /\ dim1 out = 2 /\
  dim2 out = 2 * ((dim2 a + 1) / 2) /\
  dim3 out = 2 * ((dim3 a + 1) / 2).
Proof.
  intro E.
  pose proof (fine_forward_inv _ _ _ _ _ _ E)
    as ((B0 & B2 & B3) & (F0 & F2 & F3) & (W0 & W2 & W3) & H1 & HH & HW).
  rewrite (@fine_forward_ok C theta a b flow wf B0 B2 B3 F0 F2 F3 W0 W2 W3 H1 HH HW) in E.
  injection E as <-.
  cbn -[Nat.div Nat.mul Nat.add]. rewrite !fine_chain_size by assumption.
  repeat split; lia.
Qed.

Lemma multiple_of_4_half s : s = 4 * (((s + 1) / 2 + 1) / 2) -> 2 * ((s + 1) / 2) = s.
Proof.
  intro E. apply even_half_up.
  pose proof (Nat.div_mod_eq s 2). pose proof (Nat.mod_upper_bound s 2). lia.
Qed.

Lemma composer_cases ac theta_c theta_f (frame_t frame_tp1 : Tensor R) :
  let self := FlowField.init theta_c theta_f in
  match _CoarseFlow.forward (FlowField.coarse_net self) frame_t frame_tp1 with
  | Err e => FlowField.forward ac self frame_t frame_tp1 = Err e
  | Ok coarse_flow =>
    match Warp.forward ac (FlowField.warp self) frame_t coarse_flow with
    | Err e => FlowField.forward ac self frame_t frame_tp1 = Err e
    | Ok coarse_frame_tp1 =>
      match _FineFlow.forward (FlowField.fine_net self)
              frame_t frame_tp1 coarse_flow coarse_frame_tp1 with
      | Err e => FlowField.forward ac self frame_t frame_tp1 = Err e
      | Ok fine =>
        exists out,
          FlowField.forward ac self frame_t frame_tp1 = Ok out /\
          shape fine = shape coarse_flow /\
          shape out = shape coarse_flow /\
          forall n c h w, in_range out n c h w ->
            item out n c h w = (item fine n c h w + item coarse_flow n c h w)%R
      end
    end
  end.
Proof.
  intro self. unfold FlowField.forward.
  destruct (_CoarseFlow.forward _ frame_t frame_tp1) as [cf|e] eqn:Ec; [|reflexivity].
  cbn [bind].
  destruct (Warp.forward ac _ frame_t cf) as [wf|e] eqn:Ew; [|reflexivity].
  cbn [bind].
  destruct (_FineFlow.forward _ frame_t frame_tp1 cf wf) as [fc|e] eqn:Ef; [|reflexivity].
  cbn [bind].
  pose proof (@coarse_forward_dims 1 theta_c _ _ _ Ec) as (C0 & C1 & C2 & C3).
  pose proof (@fine_forward_dims 1 theta_f _ _ _ _ _ Ef) as (F0 & F1 & F2 & F3).
  pose proof (@fine_forward_inv 1 theta_f _ _ _ _ _ Ef) as (_ & (G0 & G2 & G3) & _).
  assert (Hs : shape fc = shape cf).
  { unfold shape. rewrite F0, F1, F2, F3, C0, C1, G2, G3.
    rewrite G2 in C2. rewrite G3 in C3.
    rewrite (multiple_of_4_half C2), (multiple_of_4_half C3). reflexivity. }
  destruct (tensor_add_same_shape Hs) as (out & Eo & So & Io).
  exists out. repeat split; assumption.
Qed.

Lemma multiple_of_4_rounds s :
  1 <= s -> (s mod 4 = 0 <-> s = 4 * (((s + 1) / 2 + 1) / 2)).
Proof.
  intro Hs.
  pose proof (Nat.div_mod_eq s 4). pose proof (Nat.mod_upper_bound s 4).
  pose proof (Nat.div_mod_eq (s + 1) 2). pose proof (Nat.mod_upper_bound (s + 1) 2).
  pose proof (Nat.div_mod_eq ((s + 1) / 2 + 1) 2).
  pose proof (Nat.mod_upper_bound ((s + 1) / 2 + 1) 2).
  lia.
Qed.

(** C1: the composer's forward pass is the sequence coarse estimator on the
    two frames, warp of the first frame by the coarse flow, fine estimator
    on the two frames, the coarse flow and the warped frame, and the sum of
    the fine correction and the coarse flow.  An error of a stage is the
    error of the pass; when the three stages return, the pass returns, the
    correction and the coarse flow have the same sizes and the sum is the
    exact elementwise sum (nothing is broadcast). *)
Theorem FlowField_forward_sequence ac theta_c theta_f (frame_t frame_tp1 : Tensor R) :
  let self := FlowField.init theta_c theta_f in
  match _CoarseFlow.forward (FlowField.coarse_net self) frame_t frame_tp1 with
  | Err e => FlowField.forward ac self frame_t frame_tp1 = Err e
  | Ok coarse_flow =>
    match Warp.forward ac (FlowField.warp self) frame_t coarse_flow with
    | Err e => FlowField.forward ac self frame_t frame_tp1 = Err e
    | Ok coarse_frame_tp1 =>
      match _FineFlow.forward (FlowField.fine_net self)
              frame_t frame_tp1 coarse_flow coarse_frame_tp1 with
      | Err e => FlowField.forward ac self frame_t frame_tp1 = Err e
      | Ok fine =>
        exists out,
          FlowField.forward ac self frame_t frame_tp1 = Ok out /\
          shape fine = shape coarse_flow /\
          shape out = shape coarse_flow /\
          forall n c h w, in_range out n c h w ->
            item out n c h w = (item fine n c h w + item coarse_flow n c h w)%R
      end
    end
  end.
Proof. exact (composer_cases ac theta_c theta_f frame_t frame_tp1). Qed.

(** C2 (as amended): on two frames of the same shape (N,C,H,W) the
    composer's forward pass succeeds exactly when C = 1 and H and W are
    positive multiples of 4, and it then returns a tensor of shape
    (N,2,H,W). *)
Theorem FlowField_forward_shape ac theta_c theta_f (frame_t frame_tp1 : Tensor R) N C H W :
  shape frame_t = (N, C, H, W) -> shape frame_tp1 = (N, C, H, W) ->
  let self := FlowField.init theta_c theta_f in
  (C = 1 /\ 1 <= H /\ 1 <= W /\ H mod 4 = 0 /\ W mod 4 = 0 ->
   exists out, FlowField.forward ac self frame_t frame_tp1 = Ok out /\
               shape out = (N, 2, H, W)) /\
  (succeeds (FlowField.forward ac self frame_t frame_tp1) ->
   C = 1 /\ 1 <= H /\ 1 <= W /\ H mod 4 = 0 /\ W mod 4 = 0).
Proof.
  intros Ha Hb self. unfold shape in Ha, Hb.
  injection Ha as A0 A1 A2 A3. injection Hb as B0 B1 B2 B3.
  pose proof (composer_cases ac theta_c theta_f frame_t frame_tp1) as Seq.
  cbv zeta in Seq. fold self in Seq.
  split.
  - intros (-> & HH & HW & Hm & Wm).
    apply (multiple_of_4_rounds HH) in Hm. apply (multiple_of_4_rounds HW) in Wm.
    destruct (_CoarseFlow.forward _ frame_t frame_tp1) as [cf|e] eqn:Ec.
    2:{ exfalso. unfold self in Ec. cbn [FlowField.coarse_net FlowField.init] in Ec.
        rewrite coarse_forward_ok in Ec; [discriminate | lia ..]. }
    pose proof (@coarse_forward_dims 1 theta_c _ _ _ Ec) as (C0 & C1 & C2 & C3).
    rewrite A2 in C2. rewrite A3 in C3.
    destruct (Warp.forward ac _ frame_t cf) as [wf|e] eqn:Ew.
    2:{ exfalso. rewrite Warp_forward_ok in Ew; [discriminate | lia ..]. }
    assert (Ew' := Ew). rewrite Warp_forward_ok in Ew' by lia. injection Ew' as Ewf.
    destruct (_FineFlow.forward _ frame_t frame_tp1 cf wf) as [fc|e] eqn:Ef.
    2:{ exfalso. unfold self in Ef. cbn [FlowField.fine_net FlowField.init] in Ef.
        rewrite fine_forward_ok in Ef; [discriminate | subst wf; cbn [dim0 dim1 dim2 dim3]; lia ..]. }
    destruct Seq as (out & Eo & _ & So & _).
    exists out. split; [exact Eo|].
    rewrite So. unfold shape. congruence.
  - intros [out Eo]. rewrite Eo in Seq.
    destruct (_CoarseFlow.forward _ frame_t frame_tp1) as [cf|e] eqn:Ec; [|discriminate].
    pose proof (@coarse_forward_dims 1 theta_c _ _ _ Ec) as (C0 & C1 & C2 & C3).
    rewrite A2 in C2. rewrite A3 in C3.
    pose proof (@coarse_forward_inv 1 theta_c _ _ _ Ec) as (_ & _ & _ & Hch & HH & HW).
    destruct (Warp.forward ac _ frame_t cf) as [wf|e] eqn:Ew; [|discriminate].
    destruct (_FineFlow.forward _ frame_t frame_tp1 cf wf) as [fc|e] eqn:Ef; [|discriminate].
    pose proof (@fine_forward_inv 1 theta_f _ _ _ _ _ Ef) as (_ & (G0 & G2 & G3) & _).
    split; [lia|]. split; [lia|]. split; [lia|].
    split; apply multiple_of_4_rounds; lia.
Qed.

Lemma FlowField_forward_shape_witness :
  exists out,
    FlowField.forward false (FlowField.init zero_params5 zero_params5)
      (zeros 2 1 8 4) (zeros 2 1 8 4) = Ok out /\
    shape out = (2, 2, 8, 4).
Proof.
  apply (proj1 (@FlowField_forward_shape false zero_params5 zero_params5
                  (zeros 2 1 8 4) (zeros 2 1 8 4) 2 1 8 4 eq_refl eq_refl)).
  repeat split; solve [reflexivity | lia].
Defined.

(** C2 fails as stated: 5 x 5 single-channel frames and 4 x 4 three-channel
    frames are rejected, whichever the sampling convention. *)
Lemma FlowField_forward_shape_fails :
  result_shape
    (FlowField.forward false (FlowField.init zero_params5 zero_params5)
       (zeros 1 1 5 5) (zeros 1 1 5 5))
  = Err (CatSizeMismatch 2 5 8) /\
  result_shape
    (FlowField.forward true (FlowField.init zero_params5 zero_params5)
       (zeros 1 1 5 5) (zeros 1 1 5 5))
  = Err (CatSizeMismatch 2 5 8) /\
  result_shape
    (FlowField.forward false (FlowField.init zero_params5 zero_params5)
       (zeros 1 3 4 4) (zeros 1 3 4 4))
  = Err (ConvChannelMismatch 2 6) /\
  result_shape
    (FlowField.forward true (FlowField.init zero_params5 zero_params5)
       (zeros 1 3 4 4) (zeros 1 3 4 4))
  = Err (ConvChannelMismatch 2 6).
Proof. repeat split. Qed.

(** C10: the composer builds both estimators with input_channel = 1, so the
    first coarse convolution expects 2 channels; on same-shaped frames with
    C <> 1 the concatenation has 2C channels, that convolution raises a
    channel mismatch and so does the forward pass. *)
Theorem FlowField_rejects_multichannel ac theta_c theta_f
  (frame_t frame_tp1 : Tensor R) N C H W :
  shape frame_t = (N, C, H, W) -> shape frame_tp1 = (N, C, H, W) ->
  C <> 1 ->
  let self := FlowField.init theta_c theta_f in
  _CoarseFlow.channel (FlowField.coarse_net self) = 1 /\
  _FineFlow.channel (FlowField.fine_net self) = 1 /\
  in_channels (_CoarseFlow.conv1 (FlowField.coarse_net self)) = 2 /\
  exists input,
    torch_cat_dim1 frame_t [frame_tp1] = Ok input /\
    dim1 input = 2 * C /\
    Conv2d_forward (_CoarseFlow.conv1 (FlowField.coarse_net self)) input
    = Err (ConvChannelMismatch 2 (2 * C)) /\
    FlowField.forward ac self frame_t frame_tp1 = Err (ConvChannelMismatch 2 (2 * C)).
Proof.
  intros Ha Hb HC self. shape_eqs.
  repeat (split; [reflexivity|]).
  exists (cat2 frame_t frame_tp1).
  assert (Ecat : torch_cat_dim1 frame_t [frame_tp1] = Ok (cat2 frame_t frame_tp1)).
  { unfold torch_cat_dim1. cbn [cat_onto]. rewrite cat_check_ok by congruence. reflexivity. }
  assert (Ed : dim1 (cat2 frame_t frame_tp1) = 2 * C) by (cbn; lia).
  assert (Econv : Conv2d_forward (_CoarseFlow.conv1 (FlowField.coarse_net self))
                    (cat2 frame_t frame_tp1) = Err (ConvChannelMismatch 2 (2 * C))).
  { rewrite Conv2d_forward_channels; [rewrite Ed; reflexivity | discriminate |].
    rewrite Ed. cbn. lia. }
  repeat (split; [assumption|]).
  unfold FlowField.forward, _CoarseFlow.forward.
  rewrite Ecat. cbn [bind]. rewrite Econv. reflexivity.
Qed.

Lemma FlowField_rejects_multichannel_witness :
  FlowField.forward true (FlowField.init zero_params5 zero_params5)
    (zeros 1 3 4 4) (zeros 1 3 4 4)
  = Err (ConvChannelMismatch 2 (2 * 3)).
Proof.
  destruct (@FlowField_rejects_multichannel true zero_params5 zero_params5
              (zeros 1 3 4 4) (zeros 1 3 4 4) 1 3 4 4 eq_refl eq_refl ltac:(lia))
    as (_ & _ & _ & input & _ & _ & _ & E).
  exact E.
Defined.

(** * Warp: bilinear sampling *)

Open Scope R_scope.

Lemma unnormalize_zero ac size : unnormalize ac 0 size = (INR size - 1) / 2.
Proof. destruct ac; unfold unnormalize; lra. Qed.

(** At a pixel centre bilinear sampling returns the pixel. *)
Lemma bilinear_at_pixel (x : Tensor R) n c i j :
  (i < dim2 x)%nat -> (j < dim3 x)%nat ->
  bilinear x n c (INR j) (INR i) = item x n c i j.
Proof.
  intros Hi Hj. unfold bilinear.
  rewrite !INR_IZR_INZ, !ZfloorZ. cbv zeta.
  rewrite !plus_IZR.
  assert (E : safe_get x n c (Z.of_nat i) (Z.of_nat j) = item x n c i j).
  { unfold safe_get, within_bounds.
    destruct (Z.leb_spec 0 (Z.of_nat i)); [|lia].
    destruct (Z.ltb_spec (Z.of_nat i) (Z.of_nat (dim2 x))); [|lia].
    destruct (Z.leb_spec 0 (Z.of_nat j)); [|lia].
    destruct (Z.ltb_spec (Z.of_nat j) (Z.of_nat (dim3 x))); [|lia].
    cbn [andb]. rewrite !Nat2Z.id. reflexivity. }
  rewrite E. ring.
Qed.

Lemma odd_centre k : (INR (2 * k + 1) - 1) / 2 = INR k.
Proof. rewrite plus_INR, mult_INR. cbn. lra. Qed.

Lemma unnormalize_identity ac size i :
  (i < size)%nat -> unnormalize ac (identity_coord ac size i) size = INR i.
Proof.
  intro Hi. unfold unnormalize, identity_coord.
  assert (Hs : 1 <= INR size).
  { change 1 with (INR 1). apply le_INR. lia. }
  destruct ac.
  - destruct (Nat.eq_dec size 1) as [->|Hne].
    + assert (i = 0)%nat as -> by lia. cbn. lra.
    + assert (2 <= INR size).
      { change 2 with (INR 2). apply le_INR. lia. }
      field. lra.
  - field. lra.
Qed.

Close Scope R_scope.

(** C7: on a frame of shape (N,C,H,W) and a flow field of shape (N,2,H,W)
    the warp operator moves the flow field's channel axis last, giving a
    grid of shape (N,H,W,2), and returns a tensor of the frame's shape
    whose every element is the bilinear interpolation of the frame at the
    grid's normalized coordinates: the grid value g on an axis of S pixels
    is the pixel coordinate (g+1)/2*(S-1), or ((g+1)*S-1)/2 when corners
    are not aligned, and a point at offsets (s,t) inside the cell of pixel
    (y0,x0) gets the four corner pixels weighted (1-s)(1-t), s(1-t),
    (1-s)t and st, pixels outside the frame counting as 0. *)
Theorem Warp_forward_resamples ac (frame_t flow_field : Tensor R) N C H W :
  shape frame_t = (N, C, H, W) -> shape flow_field = (N, 2, H, W) ->
  1 <= H -> 1 <= W ->
  exists grid out,
    permute flow_field [0; 2; 3; 1] = Ok grid /\
    shape grid = (N, H, W, 2) /\
    (forall n h w c, item grid n h w c = item flow_field n c h w) /\
    F_grid_sample ac frame_t grid = Ok out /\
    Warp.forward ac Warp.init frame_t flow_field = Ok out /\
    shape out = (N, C, H, W) /\
    (forall n c h w,
       item out n c h w
       = bilinear frame_t n c (unnormalize ac (item grid n h w 0) W)
                              (unnormalize ac (item grid n h w 1) H)) /\
    (forall n c h w (x0 y0 : Z) (s t : R),
       (0 <= s < 1)%R -> (0 <= t < 1)%R ->
       (if ac then (item grid n h w 0 + 1) / 2 * (INR W - 1)
        else ((item grid n h w 0 + 1) * INR W - 1) / 2)%R = (IZR x0 + s)%R ->
       (if ac then (item grid n h w 1 + 1) / 2 * (INR H - 1)
        else ((item grid n h w 1 + 1) * INR H - 1) / 2)%R = (IZR y0 + t)%R ->
       item out n c h w = bilinear_in_cell frame_t n c x0 y0 s t).
Proof.
  intros Ha Hb HH HW. unfold shape in Ha, Hb.
  injection Ha as A0 A1 A2 A3. injection Hb as B0 B1 B2 B3.
  assert (E : Warp.forward ac Warp.init frame_t flow_field = _)
    by (apply Warp_forward_ok; lia).
  do 2 eexists.
  split; [apply permute_0231|].
  split; [unfold shape; cbn [dim0 dim1 dim2 dim3]; congruence|].
  split; [reflexivity|].
  split; [unfold Warp.forward in E; rewrite permute_0231 in E; exact E|].
  split; [exact E|].
  split; [unfold shape; cbn [dim0 dim1 dim2 dim3]; congruence|].
  split.
  - intros n c h w. cbn [item]. rewrite A2, A3. reflexivity.
  - intros n c h w x0 y0 s t Hs Ht Ex Ey. cbn [item] in *.
    rewrite A2, A3, !unnormalize_formula, Ex, Ey.
    apply bilinear_cell; assumption.
Qed.

Lemma Warp_forward_resamples_witness :
  exists out,
    Warp.forward false Warp.init (zeros 2 3 4 5) (zeros 2 2 4 5) = Ok out /\
    shape out = (2, 3, 4, 5).
Proof.
  destruct (@Warp_forward_resamples false (zeros 2 3 4 5) (zeros 2 2 4 5) 2 3 4 5
              eq_refl eq_refl ltac:(lia) ltac:(lia))
    as (grid & out & _ & _ & _ & _ & E & S & _).
  exists out. split; [exact E | exact S].
Defined.

(** C8 (as amended): with an all-zero flow field the warp operator returns,
    at every pixel, the bilinear sample of the frame at its centre point
    ((W-1)/2, (H-1)/2), that is the four pixels around the centre with
    their bilinear weights: the output is constant over each image, and for
    odd H and W it is the value of the centre pixel. *)
Theorem Warp_zero_flow_samples_centre ac (frame_t flow_field : Tensor R) N C H W :
  shape frame_t = (N, C, H, W) -> shape flow_field = (N, 2, H, W) ->
  1 <= H -> 1 <= W ->
  all_items (fun v => v = 0%R) flow_field ->
  exists out,
    Warp.forward ac Warp.init frame_t flow_field = Ok out /\
    shape out = (N, C, H, W) /\
    (forall n c h w, in_range out n c h w ->
       item out n c h w
       = bilinear frame_t n c ((INR W - 1) / 2) ((INR H - 1) / 2)) /\
    (forall a b, H = 2 * a + 1 -> W = 2 * b + 1 ->
       forall n c h w, in_range out n c h w ->
         item out n c h w = item frame_t n c a b) /\
    (forall (x0 y0 : Z) (s t : R),
       (0 <= s < 1)%R -> (0 <= t < 1)%R ->
       ((INR W - 1) / 2 = IZR x0 + s)%R -> ((INR H - 1) / 2 = IZR y0 + t)%R ->
       forall n c h w, in_range out n c h w ->
         item out n c h w = bilinear_in_cell frame_t n c x0 y0 s t).
Proof.
  intros Ha Hb HH HW Hz. unfold shape in Ha, Hb.
  injection Ha as A0 A1 A2 A3. injection Hb as B0 B1 B2 B3.
  eexists.
  split; [apply Warp_forward_ok; lia|].
  split; [unfold shape; cbn [dim0 dim1 dim2 dim3]; congruence|].
  assert (Hc : forall n c h w,
             n < N -> h < H -> w < W ->
             bilinear frame_t n c
               (unnormalize ac (item flow_field n 0 h w) (dim3 frame_t))
               (unnormalize ac (item flow_field n 1 h w) (dim2 frame_t))
             = bilinear frame_t n c ((INR W - 1) / 2) ((INR H - 1) / 2)).
  { intros n c h w Hn Hh Hw.
    rewrite !Hz by (unfold in_range; lia).
    rewrite !unnormalize_zero, A2, A3. reflexivity. }
  split; [|split].
  - intros n c h w (Hn & _ & Hh & Hw). cbn [dim0 dim2 dim3] in *. cbn [item].
    apply Hc; lia.
  - intros a b -> -> n c h w (Hn & _ & Hh & Hw). cbn [dim0 dim2 dim3] in *. cbn [item].
    rewrite Hc by lia. rewrite !odd_centre.
    apply bilinear_at_pixel; lia.
  - intros x0 y0 s t Hs Ht Ex Ey n c h w (Hn & _ & Hh & Hw).
    cbn [dim0 dim2 dim3] in *. cbn [item].
    rewrite Hc by lia. rewrite Ex, Ey. apply bilinear_cell; assumption.
Qed.

Lemma Warp_zero_flow_samples_centre_witness :
  exists out,
    Warp.forward false Warp.init ramp9 (zeros 1 2 9 9) = Ok out /\
    forall n c h w, in_range out n c h w -> item out n c h w = item ramp9 n c 4 4.
Proof.
  destruct (@Warp_zero_flow_samples_centre false ramp9 (zeros 1 2 9 9) 1 1 9 9
              eq_refl eq_refl ltac:(lia) ltac:(lia)
              (fun n c h w _ => eq_refl))
    as (out & E & _ & _ & Hc & _).
  exists out. split; [exact E | exact (Hc 4 4 eq_refl eq_refl)].
Defined.

(** C8 fails as stated: on the 9 x 9 ramp, pixel (2,2), two pixels away
    from every border, is warped to the centre value 4, not to its own
    value 2, whichever the sampling convention. *)
Lemma Warp_zero_flow_not_identity :
  (exists out,
     Warp.forward false Warp.init ramp9 (zeros 1 2 9 9) = Ok out /\
     item out 0 0 2 2 = 4%R /\ item ramp9 0 0 2 2 = 2%R) /\
  (exists out,
     Warp.forward true Warp.init ramp9 (zeros 1 2 9 9) = Ok out /\
     item out 0 0 2 2 = 4%R /\ item ramp9 0 0 2 2 = 2%R).
Proof.
  assert (E : forall ac, exists out,
     Warp.forward ac Warp.init ramp9 (zeros 1 2 9 9) = Ok out /\
     item out 0 0 2 2 = 4%R /\ item ramp9 0 0 2 2 = 2%R).
  { intro ac.
    rewrite Warp_forward_ok by (cbn; lia).
    eexists. split; [reflexivity|]. split; [|cbn; lra].
    unfold zeros, full. cbn [item dim2 dim3 ramp9]. rewrite !unnormalize_zero.
    replace ((INR 9 - 1) / 2)%R with (INR 4) by (cbn; lra).
    rewrite (@bilinear_at_pixel ramp9 0 0 4 4) by (cbn; lia).
    cbn. lra. }
  split; apply E.
Qed.

(** In exact arithmetic, sampling at the pixel centres (the identity grid)
    gives the frame back, for both conventions of align_corners. *)
Lemma Warp_identity_grid ac (frame_t : Tensor R) N C H W :
  shape frame_t = (N, C, H, W) -> 1 <= H -> 1 <= W ->
  exists out,
    Warp.forward ac Warp.init frame_t (identity_grid ac N H W) = Ok out /\
    tensor_eq out frame_t.
Proof.
  intros Ha HH HW. unfold shape in Ha. injection Ha as A0 A1 A2 A3.
  eexists.
  split; [apply Warp_forward_ok; cbn [identity_grid dim0 dim1]; lia|].
  split; [unfold shape; cbn [identity_grid dim0 dim1 dim2 dim3]; congruence|].
  intros n c h w (Hn & Hc & Hh & Hw).
  cbn [identity_grid dim0 dim1 dim2 dim3 item] in *.
  cbn [Nat.eqb]. rewrite A2, A3.
  rewrite !unnormalize_identity by assumption.
  apply bilinear_at_pixel; lia.
Qed.

(** * Results depend on the elements inside the sizes only *)

Lemma tensor_eq_dims A (a b : Tensor A) :
  tensor_eq a b ->
  dim0 a = dim0 b /\ dim1 a = dim1 b /\ dim2 a = dim2 b /\ dim3 a = dim3 b.
Proof.
  intros [Hs _]. unfold shape in Hs. injection Hs as -> -> -> ->. repeat split.
Qed.

Lemma tensor_eq_refl A (a : Tensor A) : tensor_eq a a.
Proof. split; [reflexivity | intros; reflexivity]. Qed.

Lemma bind_ext A (r r' : result (Tensor A)) (k k' : Tensor A -> result (Tensor A)) :
  result_eq r r' ->
  (forall a a', tensor_eq a a' -> result_eq (k a) (k' a')) ->
  result_eq (bind r k) (bind r' k').
Proof.
  intros Hr Hk. destruct r as [a|e], r' as [a'|e']; cbn in *; try contradiction.
  - apply Hk, Hr.
  - exact Hr.
Qed.

Lemma cat2_ext A (a a' b b' : Tensor A) :
  tensor_eq a a' -> tensor_eq b b' ->
  dim0 b = dim0 a -> dim2 b = dim2 a -> dim3 b = dim3 a ->
  tensor_eq (cat2 a b) (cat2 a' b').
Proof.
  intros Ha Hb E0 E2 E3.
  destruct (tensor_eq_dims Ha) as (A0 & A1 & A2 & A3).
  destruct (tensor_eq_dims Hb) as (B0 & B1 & B2 & B3).
  split; [unfold shape; cbn [cat2 pixel_shuffle_apply dim0 dim1 dim2 dim3]; congruence|].
  intros n c h w (Hn & Hc & Hh & Hw).
  cbn [cat2 item dim0 dim1 dim2 dim3] in *. rewrite <- A1.
  destruct (Nat.ltb_spec c (dim1 a)).
  - apply Ha. repeat split; assumption.
  - apply Hb. repeat split; lia.
Qed.

Lemma cat_check_ext A (a a' b b' : Tensor A) :
  tensor_eq a a' -> tensor_eq b b' -> cat_check a b = cat_check a' b'.
Proof.
  intros Ha Hb.
  destruct (tensor_eq_dims Ha) as (A0 & A1 & A2 & A3).
  destruct (tensor_eq_dims Hb) as (B0 & B1 & B2 & B3).
  unfold cat_check. rewrite A0, A2, A3, B0, B2, B3. reflexivity.
Qed.

Lemma cat_onto_ext A (rest rest' : list (Tensor A)) :
  Forall2 (@tensor_eq A) rest rest' ->
  forall a a', tensor_eq a a' -> result_eq (cat_onto a rest) (cat_onto a' rest').
Proof.
  induction 1 as [|b b' rest rest' Hb Hr IH]; intros a a' Ha; cbn [cat_onto].
  - exact Ha.
  - rewrite (cat_check_ext Ha Hb).
    destruct (cat_check a' b') as [u|e] eqn:E; cbn [bind]; [|reflexivity].
    rewrite <- (cat_check_ext Ha Hb) in E. apply cat_check_inv in E.
    apply IH. apply cat2_ext; tauto.
Qed.

Lemma map_tensor_ext f (x x' : Tensor R) :
  tensor_eq x x' -> tensor_eq (map_tensor f x) (map_tensor f x').
Proof.
  intros [Hs Hi]. split; [exact Hs|].
  intros n c h w Hr. cbn [map_tensor item]. f_equal. apply Hi. exact Hr.
Qed.

Lemma zero_padded_ext (x x' : Tensor R) p n c a b :
  tensor_eq x x' -> n < dim0 x -> c < dim1 x ->
  zero_padded x p n c a b = zero_padded x' p n c a b.
Proof.
  intros Hx Hn Hc. destruct (tensor_eq_dims Hx) as (A0 & A1 & A2 & A3).
  unfold zero_padded. rewrite <- A2, <- A3.
  destruct (Nat.leb_spec p a); cbn [andb]; [|reflexivity].
  destruct (Nat.ltb_spec a (dim2 x + p)); cbn [andb]; [|reflexivity].
  destruct (Nat.leb_spec p b); cbn [andb]; [|reflexivity].
  destruct (Nat.ltb_spec b (dim3 x + p)); [|reflexivity].
  apply Hx. repeat split; lia.
Qed.

Lemma Conv2d_forward_ext m (x x' : Tensor R) :
  tensor_eq x x' -> result_eq (Conv2d_forward m x) (Conv2d_forward m x').
Proof.
  intros Hx. destruct (tensor_eq_dims Hx) as (A0 & A1 & A2 & A3).
  unfold Conv2d_forward. rewrite <- A1, <- A2, <- A3.
  destruct (stride m =? 0); [reflexivity|].
  destruct (Nat.eqb_spec (dim1 x) (in_channels m)) as [Ec|]; cbn [negb]; [|reflexivity].
  destruct (dim2 x + 2 * padding m <? kernel_size m); [reflexivity|].
  destruct (dim3 x + 2 * padding m <? kernel_size m); [reflexivity|].
  split; [unfold shape; cbn [conv_apply dim0 dim1 dim2 dim3]; congruence|].
  intros n co i j (Hn & _). cbn [conv_apply dim0 item] in *. unfold conv_item.
  f_equal. apply sum_upto_ext. intros ci Hci.
  apply sum_upto_ext. intros ki _. apply sum_upto_ext. intros kj _.
  f_equal. apply zero_padded_ext; [assumption | assumption | lia].
Qed.

Lemma PixelShuffle_forward_ext A r (x x' : Tensor A) :
  tensor_eq x x' -> result_eq (PixelShuffle_forward r x) (PixelShuffle_forward r x').
Proof.
  intros Hx. destruct (tensor_eq_dims Hx) as (A0 & A1 & A2 & A3).
  unfold PixelShuffle_forward. rewrite <- A1.
  destruct (Nat.eqb_spec r 0) as [|Hr]; cbn [orb]; [reflexivity|].
  destruct (Nat.eqb_spec (dim1 x mod (r * r)) 0) as [Hm|]; cbn [negb]; [|reflexivity].
  split; [unfold shape; cbn [cat2 pixel_shuffle_apply dim0 dim1 dim2 dim3]; congruence|].
  intros n c h w Hin. cbn [pixel_shuffle_apply item].
  apply Hx. apply pixel_shuffle_reads_inside; assumption.
Qed.

Lemma permute_0231_ext A (x x' : Tensor A) :
  tensor_eq x x' -> result_eq (permute x [0; 2; 3; 1]) (permute x' [0; 2; 3; 1]).
Proof.
  intros Hx. destruct (tensor_eq_dims Hx) as (A0 & A1 & A2 & A3).
  rewrite !permute_0231.
  split; [unfold shape; cbn [cat2 pixel_shuffle_apply dim0 dim1 dim2 dim3]; congruence|].
  intros n h w c (Hn & Hh & Hw & Hc). cbn [item dim0 dim1 dim2 dim3] in *. apply Hx. repeat split; assumption.
Qed.

Lemma safe_get_ext (x x' : Tensor R) n c iy ix :
  tensor_eq x x' -> n < dim0 x -> c < dim1 x ->
  safe_get x n c iy ix = safe_get x' n c iy ix.
Proof.
  intros Hx Hn Hc. destruct (tensor_eq_dims Hx) as (A0 & A1 & A2 & A3).
  unfold safe_get, within_bounds. rewrite <- A2, <- A3.
  destruct (Z.leb_spec 0 iy); cbn [andb]; [|reflexivity].
  destruct (Z.ltb_spec iy (Z.of_nat (dim2 x))); cbn [andb]; [|reflexivity].
  destruct (Z.leb_spec 0 ix); cbn [andb]; [|reflexivity].
  destruct (Z.ltb_spec ix (Z.of_nat (dim3 x))); [|reflexivity].
  apply Hx. repeat split; lia.
Qed.

Lemma F_grid_sample_ext ac (x x' g g' : Tensor R) :
  tensor_eq x x' -> tensor_eq g g' ->
  result_eq (F_grid_sample ac x g) (F_grid_sample ac x' g').
Proof.
  intros Hx Hg.
  destruct (tensor_eq_dims Hx) as (A0 & A1 & A2 & A3).
  destruct (tensor_eq_dims Hg) as (B0 & B1 & B2 & B3).
  unfold F_grid_sample. rewrite <- A0, <- A2, <- A3, <- B0, <- B3.
  destruct (Nat.eqb_spec (dim0 x) (dim0 g)) as [E0|]; cbn [negb]; [|reflexivity].
  destruct (Nat.eqb_spec (dim3 g) 2) as [E3|]; cbn [negb]; [|reflexivity].
  destruct ((dim2 x =? 0) || (dim3 x =? 0)); [reflexivity|].
  split; [unfold shape; cbn [cat2 pixel_shuffle_apply dim0 dim1 dim2 dim3]; congruence|].
  intros n c h w (Hn & Hc & Hh & Hw). cbn [dim0 dim1 dim2 dim3 item] in *.
  unfold grid_sample_item. rewrite <- A2, <- A3.
  rewrite <- !(proj2 Hg) by (repeat split; lia).
  unfold bilinear. cbv zeta.
  rewrite !(@safe_get_ext x x') by assumption. reflexivity.
Qed.

Lemma tensor_add_ext (a a' b b' : Tensor R) :
  tensor_eq a a' -> tensor_eq b b' -> result_eq (tensor_add a b) (tensor_add a' b').
Proof.
  intros Ha Hb.
  destruct (tensor_eq_dims Ha) as (A0 & A1 & A2 & A3).
  destruct (tensor_eq_dims Hb) as (B0 & B1 & B2 & B3).
  unfold tensor_add. rewrite <- A0, <- A1, <- A2, <- A3, <- B0, <- B1, <- B2, <- B3.
  destruct (broadcast_dim 3 (dim3 a) (dim3 b)) as [d3|] eqn:E3; cbn [bind]; [|reflexivity].
  destruct (broadcast_dim 2 (dim2 a) (dim2 b)) as [d2|] eqn:E2; cbn [bind]; [|reflexivity].
  destruct (broadcast_dim 1 (dim1 a) (dim1 b)) as [d1|] eqn:E1; cbn [bind]; [|reflexivity].
  destruct (broadcast_dim 0 (dim0 a) (dim0 b)) as [d0|] eqn:E0; cbn [bind]; [|reflexivity].
  split; [reflexivity|].
  intros n c h w (Hn & Hc & Hh & Hw). cbn [dim0 dim1 dim2 dim3 item] in *.
  assert (B : forall d x y r i, broadcast_dim d x y = Ok r -> i < r ->
               bidx x i < x /\ bidx y i < y).
  { intros d x y r i. unfold broadcast_dim, bidx.
    destruct (Nat.eqb_spec x y); [intro E; injection E as <-; subst;
      destruct (Nat.eqb_spec y 1); lia|].
    destruct (Nat.eqb_spec x 1); [intro E; injection E as <-;
      destruct (Nat.eqb_spec y 1); lia|].
    destruct (Nat.eqb_spec y 1); [intro E; injection E as <-; lia | discriminate]. }
  destruct (B _ _ _ _ _ E0 Hn), (B _ _ _ _ _ E1 Hc), (B _ _ _ _ _ E2 Hh), (B _ _ _ _ _ E3 Hw).
  f_equal; [apply Ha | apply Hb]; repeat split; assumption.
Qed.


Ltac ext_step :=
  match goal with
  | |- result_eq (bind _ _) (bind _ _) => apply bind_ext; [|intros ? ? ?]
  | |- result_eq (Conv2d_forward _ _) (Conv2d_forward _ _) => apply Conv2d_forward_ext
  | |- result_eq (PixelShuffle_forward _ _) (PixelShuffle_forward _ _) =>
      apply PixelShuffle_forward_ext
  | |- result_eq (torch_cat_dim1 _ _) (torch_cat_dim1 _ _) =>
      apply cat_onto_ext;
        [repeat (apply Forall2_cons; [assumption|]); apply Forall2_nil|]
  | |- result_eq (permute _ _) (permute _ _) => apply permute_0231_ext
  | |- result_eq (F_grid_sample _ _ _) (F_grid_sample _ _ _) => apply F_grid_sample_ext
  | |- result_eq (tensor_add _ _) (tensor_add _ _) => apply tensor_add_ext
  | |- tensor_eq (F_relu _) (F_relu _) => apply map_tensor_ext
  | |- tensor_eq (F_tanh _) (F_tanh _) => apply map_tensor_ext
  | |- tensor_eq _ _ => assumption
  end.

Lemma CoarseFlow_forward_ext self (a a' b b' : Tensor R) :
  tensor_eq a a' -> tensor_eq b b' ->
  result_eq (_CoarseFlow.forward self a b) (_CoarseFlow.forward self a' b').
Proof. intros Ha Hb. unfold _CoarseFlow.forward. repeat ext_step. Qed.

Lemma FineFlow_forward_ext self (a a' b b' f f' g g' : Tensor R) :
  tensor_eq a a' -> tensor_eq b b' -> tensor_eq f f' -> tensor_eq g g' ->
  result_eq (_FineFlow.forward self a b f g) (_FineFlow.forward self a' b' f' g').
Proof. intros Ha Hb Hf Hg. unfold _FineFlow.forward. repeat ext_step. Qed.

Lemma Warp_forward_ext ac self (a a' f f' : Tensor R) :
  tensor_eq a a' -> tensor_eq f f' ->
  result_eq (Warp.forward ac self a f) (Warp.forward ac self a' f').
Proof. intros Ha Hf. unfold Warp.forward. repeat ext_step. Qed.

(** The composer's result is determined by the elements of the two frames:
    nothing outside the sizes of a tensor is ever read. *)
Lemma FlowField_forward_ext ac self (a a' b b' : Tensor R) :
  tensor_eq a a' -> tensor_eq b b' ->
  result_eq (FlowField.forward ac self a b) (FlowField.forward ac self a' b').
Proof.
  intros Ha Hb. unfold FlowField.forward.
  apply bind_ext; [apply CoarseFlow_forward_ext; assumption|]. intros cf cf' Hcf.
  apply bind_ext; [apply Warp_forward_ext; assumption|]. intros wf wf' Hwf.
  apply bind_ext; [apply FineFlow_forward_ext; assumption|]. intros fc fc' Hfc.
  apply tensor_add_ext; assumption.
Qed.

(** * Which inputs the estimators and the warp accept *)

(** X1: the coarse estimator built for C channels returns exactly when the
    two frames agree in batch size, height and width, their channel counts
    add up to 2C, and height and width are at least 1 (the channel count of
    each frame alone is not checked); the flow field then has 2 channels
    and the frames' height and width rounded up to a multiple of 4. *)
Theorem CoarseFlow_forward_accepts C theta (frame_t frame_tp1 : Tensor R) :
  (succeeds (_CoarseFlow.forward (_CoarseFlow.init C theta) frame_t frame_tp1) <->
   dim0 frame_tp1 = dim0 frame_t /\ dim2 frame_tp1 = dim2 frame_t /\
   dim3 frame_tp1 = dim3 frame_t /\
   dim1 frame_t + dim1 frame_tp1 = 2 * C /\
   1 <= dim2 frame_t /\ 1 <= dim3 frame_t) /\
  (forall out,
     _CoarseFlow.forward (_CoarseFlow.init C theta) frame_t frame_tp1 = Ok out ->
     shape out = (dim0 frame_t, 2,
                  4 * (((dim2 frame_t + 1) / 2 + 1) / 2),
                  4 * (((dim3 frame_t + 1) / 2 + 1) / 2))).
Proof.
  split; [split|].
  - intros [out E]. pose proof (coarse_forward_inv _ _ _ _ E). lia.
  - intros (H0 & H2 & H3 & H1 & HH & HW). eexists.
    apply (coarse_forward_ok C theta); solve [assumption | lia].
  - intros out E. destruct (coarse_forward_dims _ _ _ _ E) as (D0 & D1 & D2 & D3).
    unfold shape. congruence.
Qed.

(** X2: the fine estimator built for C channels returns exactly when the
    second frame, the flow field and the warped frame have the batch size,
    height and width of the first frame, the four channel counts add up to
    3C+2, and height and width are at least 1; the correction then has 2
    channels and the frames' height and width rounded up to an even
    number. *)
Theorem FineFlow_forward_accepts C theta
  (frame_t frame_tp1 flow coarse_frame_tp1 : Tensor R) :
  (succeeds (_FineFlow.forward (_FineFlow.init C theta)
               frame_t frame_tp1 flow coarse_frame_tp1) <->
   same_image_sizes frame_t frame_tp1 /\ same_image_sizes frame_t flow /\
   same_image_sizes frame_t coarse_frame_tp1 /\
   dim1 frame_t + dim1 frame_tp1 + dim1 flow + dim1 coarse_frame_tp1 = 3 * C + 2 /\
   1 <= dim2 frame_t /\ 1 <= dim3 frame_t) /\
  (forall out,
     _FineFlow.forward (_FineFlow.init C theta)
       frame_t frame_tp1 flow coarse_frame_tp1 = Ok out ->
     shape out = (dim0 frame_t, 2,
                  2 * ((dim2 frame_t + 1) / 2), 2 * ((dim3 frame_t + 1) / 2))).
Proof.
  unfold same_image_sizes.
  split; [split|].
  - intros [out E]. pose proof (fine_forward_inv _ _ _ _ _ _ E). intuition lia.
  - intros ((B0 & B2 & B3) & (F0 & F2 & F3) & (W0 & W2 & W3) & H1 & HH & HW). eexists.
    apply (fine_forward_ok C theta); solve [assumption | lia].
  - intros out E. destruct (fine_forward_dims _ _ _ _ _ _ E) as (D0 & D1 & D2 & D3).
    unfold shape. congruence.
Qed.

(** X3: the warp operator returns exactly when frame and flow field have
    the same batch size, the flow field has 2 channels and the frame has at
    least one row and one column; the result has the frame's batch size and
    channels and the flow field's height and width, which need not be the
    frame's. *)
Theorem Warp_forward_accepts ac self (frame_t flow_field : Tensor R) :
  (succeeds (Warp.forward ac self frame_t flow_field) <->
   dim0 frame_t = dim0 flow_field /\ dim1 flow_field = 2 /\
   1 <= dim2 frame_t /\ 1 <= dim3 frame_t) /\
  (forall out,
     Warp.forward ac self frame_t flow_field = Ok out ->
     shape out = (dim0 frame_t, dim1 frame_t, dim2 flow_field, dim3 flow_field)).
Proof.
  split; [split|].
  - intros [out E]. exact (Warp_forward_inv _ _ _ _ E).
  - intros (H0 & H1 & HH & HW). eexists. apply Warp_forward_ok; assumption.
  - intros out E. destruct (Warp_forward_inv _ _ _ _ E) as (H0 & H1 & HH & HW).
    rewrite Warp_forward_ok in E by assumption. injection E as <-. reflexivity.
Qed.

(** * The composer: stages, errors, range *)

(** X9: inside the composer the warp stage never raises: whenever the
    coarse estimator returns, its flow field is a valid sampling grid for
    the first frame, and the warped frame has the frame's channels and the
    flow field's height and width. *)
Theorem FlowField_warp_stage_returns ac theta_c theta_f
  (frame_t frame_tp1 coarse_flow : Tensor R) :
  let self := FlowField.init theta_c theta_f in
  _CoarseFlow.forward (FlowField.coarse_net self) frame_t frame_tp1 = Ok coarse_flow ->
  exists coarse_frame_tp1,
    Warp.forward ac (FlowField.warp self) frame_t coarse_flow = Ok coarse_frame_tp1 /\
    shape coarse_frame_tp1
    = (dim0 frame_t, dim1 frame_t, dim2 coarse_flow, dim3 coarse_flow).
Proof.
  intros self E.
  pose proof (@coarse_forward_inv 1 theta_c _ _ _ E) as (_ & _ & _ & _ & HH & HW).
  pose proof (@coarse_forward_dims 1 theta_c _ _ _ E) as (D0 & D1 & _ & _).
  eexists. split; [apply Warp_forward_ok; solve [assumption | lia]|]. reflexivity.
Qed.

Lemma cat_check_err A (a b : Tensor A) e :
  cat_check a b = Err e -> exists d x y, e = CatSizeMismatch d x y.
Proof.
  unfold cat_check.
  repeat match goal with
  | |- context [if ?c then _ else _] => destruct c
  end; intro E; try discriminate; injection E as <-; eauto.
Qed.

Lemma Conv2d_forward_err m x e :
  stride m <> 0 ->
  Conv2d_forward m x = Err e ->
  e = ConvChannelMismatch (in_channels m) (dim1 x) \/
  exists s, e = ConvKernelTooLarge s (kernel_size m).
Proof.
  intro Hs. unfold Conv2d_forward.
  destruct (Nat.eqb_spec (stride m) 0); [contradiction|].
  repeat match goal with
  | |- context [if ?c then _ else _] => destruct c
  end; intro E; try discriminate; injection E as <-; eauto.
Qed.

Lemma coarse_forward_err C theta a b e :
  _CoarseFlow.forward (_CoarseFlow.init C theta) a b = Err e ->
  (exists d x y, e = CatSizeMismatch d x y) \/
  e = ConvChannelMismatch (C * 2) (dim1 a + dim1 b) \/
  exists s, e = ConvKernelTooLarge s 5.
Proof.
  intro E.
  destruct (cat_check a b) as [u|e'] eqn:Ecat.
  - destruct (Conv2d_forward (_CoarseFlow.conv1 (_CoarseFlow.init C theta)) (cat2 a b))
      as [x1|e'] eqn:E1.
    + exfalso. apply cat_check_inv in Ecat. apply Conv2d_forward_inv in E1.
      cbn in E1. rewrite coarse_forward_ok in E; [discriminate | lia ..].
    + unfold _CoarseFlow.forward, torch_cat_dim1 in E. cbn [cat_onto] in E.
      rewrite Ecat in E. cbn [bind] in E. rewrite E1 in E. cbn [bind] in E.
      injection E as <-. right.
      apply Conv2d_forward_err in E1; [exact E1 | discriminate].
  - unfold _CoarseFlow.forward, torch_cat_dim1 in E. cbn [cat_onto] in E.
    rewrite Ecat in E. cbn [bind] in E. injection E as <-. left.
    exact (cat_check_err _ _ Ecat).
Qed.

Lemma fine_forward_err C theta a b f g e :
  _FineFlow.forward (_FineFlow.init C theta) a b f g = Err e ->
  (exists d x y, e = CatSizeMismatch d x y) \/
  e = ConvChannelMismatch (C * 3 + 2) (dim1 a + dim1 b + dim1 f + dim1 g) \/
  exists s, e = ConvKernelTooLarge s 5.
Proof.
  intro E. assert (E0 := E).
  unfold _FineFlow.forward, torch_cat_dim1 in E. cbn [cat_onto] in E.
  destruct (cat_check a b) as [u|e'] eqn:E1; cbn [bind] in E;
    [|injection E as <-; left; exact (cat_check_err _ _ E1)].
  destruct (cat_check (cat2 a b) f) as [u'|e'] eqn:E2; cbn [bind] in E;
    [|injection E as <-; left; exact (cat_check_err _ _ E2)].
  destruct (cat_check (cat2 (cat2 a b) f) g) as [u''|e'] eqn:E3; cbn [bind] in E;
    [|injection E as <-; left; exact (cat_check_err _ _ E3)].
  destruct (Conv2d_forward (_FineFlow.conv1 (_FineFlow.init C theta))
              (cat2 (cat2 (cat2 a b) f) g)) as [x1|e'] eqn:E4.
  - exfalso. apply cat_check_inv in E1, E2, E3. apply Conv2d_forward_inv in E4.
    cbn in E2, E3, E4.
    rewrite fine_forward_ok in E0; [discriminate | lia ..].
  - cbn [bind] in E. injection E as <-. right.
    apply Conv2d_forward_err in E4; [exact E4 | discriminate].
Qed.

Lemma composer_ok ac theta_c theta_f (a b : Tensor R) :
  dim0 b = dim0 a -> dim1 a = 1 -> dim1 b = 1 ->
  dim2 b = dim2 a -> dim3 b = dim3 a ->
  1 <= dim2 a -> 1 <= dim3 a -> dim2 a mod 4 = 0 -> dim3 a mod 4 = 0 ->
  exists out,
    FlowField.forward ac (FlowField.init theta_c theta_f) a b = Ok out /\
    shape out = (dim0 a, 2, dim2 a, dim3 a).
Proof.
  intros B0 A1 B1 B2 B3 HH HW Hm Wm.
  apply (multiple_of_4_rounds HH) in Hm. apply (multiple_of_4_rounds HW) in Wm.
  pose proof (composer_cases ac theta_c theta_f a b) as Seq. cbv zeta in Seq.
  cbn [FlowField.coarse_net FlowField.fine_net FlowField.warp FlowField.init] in Seq.
  destruct (_CoarseFlow.forward _ a b) as [cf|e] eqn:Ec.
  2:{ exfalso. rewrite coarse_forward_ok in Ec; [discriminate | lia ..]. }
  pose proof (coarse_forward_dims _ _ _ _ Ec) as (C0 & C1 & C2 & C3).
  destruct (Warp.forward ac _ a cf) as [wf|e] eqn:Ew.
  2:{ exfalso. rewrite Warp_forward_ok in Ew; [discriminate | lia ..]. }
  assert (Ew' := Ew). rewrite Warp_forward_ok in Ew' by lia. injection Ew' as Ewf.
  destruct (_FineFlow.forward _ a b cf wf) as [fc|e] eqn:Ef.
  2:{ exfalso.
      rewrite fine_forward_ok in Ef;
        [discriminate | subst wf; cbn [dim0 dim1 dim2 dim3]; lia ..]. }
  destruct Seq as (out & Eo & _ & So & _).
  exists out. split; [exact Eo|].
  rewrite So. unfold shape. f_equal; [f_equal; [f_equal|]|]; lia.
Qed.

Lemma composer_inv ac theta_c theta_f (a b : Tensor R) out :
  FlowField.forward ac (FlowField.init theta_c theta_f) a b = Ok out ->
  dim0 b = dim0 a /\ dim1 a = 1 /\ dim1 b = 1 /\
  dim2 b = dim2 a /\ dim3 b = dim3 a /\
  1 <= dim2 a /\ 1 <= dim3 a /\ dim2 a mod 4 = 0 /\ dim3 a mod 4 = 0.
Proof.
  intro Eo.
  pose proof (composer_cases ac theta_c theta_f a b) as Seq. cbv zeta in Seq.
  cbn [FlowField.coarse_net FlowField.fine_net FlowField.warp FlowField.init] in Seq.
  rewrite Eo in Seq.
  destruct (_CoarseFlow.forward _ a b) as [cf|e] eqn:Ec; [|discriminate].
  pose proof (coarse_forward_dims _ _ _ _ Ec) as (C0 & C1 & C2 & C3).
  pose proof (coarse_forward_inv _ _ _ _ Ec) as (B0 & B2 & B3 & Hch & HH & HW).
  destruct (Warp.forward ac _ a cf) as [wf|e] eqn:Ew; [|discriminate].
  assert (Ew' := Ew). rewrite Warp_forward_ok in Ew' by lia. injection Ew' as Ewf.
  destruct (_FineFlow.forward _ a b cf wf) as [fc|e] eqn:Ef; [|discriminate].
  pose proof (fine_forward_inv _ _ _ _ _ _ Ef) as (_ & (G0 & G2 & G3) & _ & Gch & _).
  subst wf. cbn [dim1] in Gch.
  repeat split; try lia; apply multiple_of_4_rounds; lia.
Qed.

(** X7: for two frames of any shapes, the composer's forward pass returns
    exactly when both have the same shape, one channel, and height and
    width that are positive multiples of 4; the result then has shape
    (N,2,H,W). *)
Theorem FlowField_forward_accepts ac theta_c theta_f (frame_t frame_tp1 : Tensor R) :
  let self := FlowField.init theta_c theta_f in
  (succeeds (FlowField.forward ac self frame_t frame_tp1) <->
   shape frame_tp1 = shape frame_t /\ dim1 frame_t = 1 /\
   1 <= dim2 frame_t /\ 1 <= dim3 frame_t /\
   dim2 frame_t mod 4 = 0 /\ dim3 frame_t mod 4 = 0) /\
  (forall out,
     FlowField.forward ac self frame_t frame_tp1 = Ok out ->
     shape out = (dim0 frame_t, 2, dim2 frame_t, dim3 frame_t)).
Proof.
  intro self. subst self. split; [split|].
  - intros [out Eo]. pose proof (composer_inv _ _ _ _ _ Eo) as I.
    unfold shape. repeat split; try tauto.
    f_equal; [f_equal; [f_equal|]|]; lia.
  - intros (Hs & A1 & HH & HW & Hm & Wm). unfold shape in Hs.
    injection Hs as B0 B1 B2 B3.
    destruct (@composer_ok ac theta_c theta_f frame_t frame_tp1) as (out & Eo & _);
      try lia.
    exists out. exact Eo.
  - intros out Eo. pose proof (composer_inv _ _ _ _ _ Eo) as I.
    destruct (@composer_ok ac theta_c theta_f frame_t frame_tp1) as (out' & Eo' & So);
      try tauto.
    rewrite Eo in Eo'. injection Eo' as <-. exact So.
Qed.

(** X8: the only errors the composer's forward pass raises are a size
    mismatch in torch.cat, a channel mismatch at the first convolution of
    the coarse (2 expected) or of the fine estimator (5 expected), and a
    5 x 5 kernel larger than the padded input; it never raises in the pixel
    shuffle, the permute, the grid sampling or the final sum. *)
Theorem FlowField_forward_errors ac theta_c theta_f (frame_t frame_tp1 : Tensor R) e :
  FlowField.forward ac (FlowField.init theta_c theta_f) frame_t frame_tp1 = Err e ->
  (exists d x y, e = CatSizeMismatch d x y) \/
  e = ConvChannelMismatch 2 (dim1 frame_t + dim1 frame_tp1) \/
  e = ConvChannelMismatch 5 (dim1 frame_t + dim1 frame_tp1 + 2 + dim1 frame_t) \/
  (exists s, e = ConvKernelTooLarge s 5).
Proof.
  intro Ee.
  pose proof (composer_cases ac theta_c theta_f frame_t frame_tp1) as Seq.
  cbv zeta in Seq.
  cbn [FlowField.coarse_net FlowField.fine_net FlowField.warp FlowField.init] in Seq.
  rewrite Ee in Seq.
  destruct (_CoarseFlow.forward _ frame_t frame_tp1) as [cf|e1] eqn:Ec.
  - pose proof (coarse_forward_dims _ _ _ _ Ec) as (C0 & C1 & _ & _).
    pose proof (coarse_forward_inv _ _ _ _ Ec) as (_ & _ & _ & _ & HH & HW).
    rewrite Warp_forward_ok in Seq by lia.
    match type of Seq with
    | match ?r with _ => _ end => destruct r as [fc|e2] eqn:Ef
    end.
    + destruct Seq as (out & Eo & _). discriminate.
    + injection Seq as <-. apply fine_forward_err in Ef.
      cbn [dim1] in Ef. rewrite C1 in Ef.
      destruct Ef as [?|[?|?]]; auto.
  - injection Seq as <-. apply coarse_forward_err in Ec.
    destruct Ec as [?|[?|?]]; auto.
Qed.

Lemma coarse_forward_open C theta a b out :
  _CoarseFlow.forward (_CoarseFlow.init C theta) a b = Ok out ->
  forall n c h w, (-1 < item out n c h w < 1)%R.
Proof.
  intro E. pose proof (coarse_forward_inv _ _ _ _ E) as (H0 & H2 & H3 & H1 & HH & HW).
  rewrite (@coarse_forward_ok C theta a b H0 H2 H3 H1 HH HW) in E.
  injection E as <-. intros n c h w.
  cbn [pixel_shuffle_apply item F_tanh map_tensor]. apply tanh_bound.
Qed.

Lemma fine_forward_open C theta a b f g out :
  _FineFlow.forward (_FineFlow.init C theta) a b f g = Ok out ->
  forall n c h w, (-1 < item out n c h w < 1)%R.
Proof.
  intro E.
  pose proof (fine_forward_inv _ _ _ _ _ _ E)
    as ((B0 & B2 & B3) & (F0 & F2 & F3) & (W0 & W2 & W3) & H1 & HH & HW).
  rewrite (@fine_forward_ok C theta a b f g B0 B2 B3 F0 F2 F3 W0 W2 W3 H1 HH HW) in E.
  injection E as <-. intros n c h w.
  cbn [pixel_shuffle_apply item F_tanh map_tensor]. apply tanh_bound.
Qed.

Lemma composer_sum ac theta_c theta_f (a b : Tensor R) out :
  FlowField.forward ac (FlowField.init theta_c theta_f) a b = Ok out ->
  exists cf wf fc,
    _CoarseFlow.forward (_CoarseFlow.init 1 theta_c) a b = Ok cf /\
    Warp.forward ac Warp.init a cf = Ok wf /\
    _FineFlow.forward (_FineFlow.init 1 theta_f) a b cf wf = Ok fc /\
    forall n c h w, in_range out n c h w ->
      item out n c h w = (item fc n c h w + item cf n c h w)%R.
Proof.
  intro Eo.
  pose proof (composer_cases ac theta_c theta_f a b) as Seq. cbv zeta in Seq.
  cbn [FlowField.coarse_net FlowField.fine_net FlowField.warp FlowField.init] in Seq.
  rewrite Eo in Seq.
  destruct (_CoarseFlow.forward _ a b) as [cf|e] eqn:Ec; [|discriminate].
  destruct (Warp.forward ac _ a cf) as [wf|e] eqn:Ew; [|discriminate].
  destruct (_FineFlow.forward _ a b cf wf) as [fc|e] eqn:Ef; [|discriminate].
  destruct Seq as (out' & Eo' & _ & _ & Hsum). injection Eo' as <-.
  exists cf, wf, fc. repeat split; assumption.
Qed.

(** X10: every element of the composer's output lies between -2 and 2: it
    is the sum of two tensors bounded by tanh. *)
Theorem FlowField_output_within_two ac theta_c theta_f (frame_t frame_tp1 : Tensor R) out :
  FlowField.forward ac (FlowField.init theta_c theta_f) frame_t frame_tp1 = Ok out ->
  all_items (fun v => (-2 <= v <= 2)%R) out.
Proof.
  intros Eo n c h w Hr.
  destruct (composer_sum _ _ _ _ _ Eo) as (cf & wf & fc & Ec & _ & Ef & Hsum).
  rewrite (Hsum _ _ _ _ Hr).
  pose proof (coarse_forward_open _ _ _ _ Ec n c h w).
  pose proof (fine_forward_open _ _ _ _ _ _ Ef n c h w). lra.
Qed.

Lemma tanh_above_half x : (1 <= x -> 1 / 2 < tanh x)%R.
Proof.
  intro Hx. unfold tanh, sinh, cosh.
  pose proof (exp_pos x) as Ha. pose proof (exp_pos (- x)) as Hb.
  assert (Ea : (2 < exp x)%R) by (pose proof (exp_ineq1 x ltac:(lra)); lra).
  assert (Eab : (exp x * exp (- x) = 1)%R).
  { rewrite <- exp_plus. replace (x + - x)%R with 0%R by ring. apply exp_0. }
  set (p := exp x) in *. set (q := exp (- x)) in *.
  assert (Hq : (q < 1 / 2)%R) by nra.
  assert (Hc : (0 < (p + q) / 2)%R) by lra.
  assert (Ei : ((p + q) / 2 * / ((p + q) / 2) = 1)%R) by (apply Rinv_r; lra).
  pose proof (Rinv_0_lt_compat _ Hc) as Hi.
  unfold Rdiv at 2. set (i := (/ ((p + q) / 2))%R) in *.
  assert (0 < ((p - q) / 2 - 1 / 2 * ((p + q) / 2)) * i)%R
    by (apply Rmult_lt_0_compat; lra).
  nra.
Qed.

Lemma sum_upto_zero k : sum_upto k (fun _ => 0%R) = 0%R.
Proof. induction k as [|k IH]; cbn; [reflexivity | rewrite IH; lra]. Qed.

Lemma conv_item_zero_weight m x n co i j :
  (forall ci ki kj, weight m co ci ki kj = 0%R) ->
  conv_item m x n co i j = bias m co.
Proof.
  intro Hw. unfold conv_item.
  rewrite (@sum_upto_ext _ _ (fun _ => 0%R)); [rewrite sum_upto_zero; lra|].
  intros ci _.
  rewrite (@sum_upto_ext _ _ (fun _ => 0%R)); [apply sum_upto_zero|].
  intros ki _.
  rewrite (@sum_upto_ext _ _ (fun _ => 0%R)); [apply sum_upto_zero|].
  intros kj _. rewrite Hw. lra.
Qed.

(** X11: the composer's output is not confined to [-1,1]: when the last
    convolution of both estimators has zero weights and biases of at least
    1, every element of the output exceeds 1, whatever the frames. *)
Theorem FlowField_output_may_exceed_one ac theta_c theta_f
  (frame_t frame_tp1 : Tensor R) out :
  (forall co ci ki kj, p_weight (theta5 theta_c) co ci ki kj = 0%R) ->
  (forall co ci ki kj, p_weight (theta5 theta_f) co ci ki kj = 0%R) ->
  (forall co, (1 <= p_bias (theta5 theta_c) co)%R) ->
  (forall co, (1 <= p_bias (theta5 theta_f) co)%R) ->
  FlowField.forward ac (FlowField.init theta_c theta_f) frame_t frame_tp1 = Ok out ->
  all_items (fun v => (1 < v)%R) out.
Proof.
  intros Wc Wf Bc Bf Eo n c h w Hr.
  destruct (composer_sum _ _ _ _ _ Eo) as (cf & wf & fc & Ec & _ & Ef & Hsum).
  rewrite (Hsum _ _ _ _ Hr).
  pose proof (coarse_forward_inv _ _ _ _ Ec) as (H0 & H2 & H3 & H1 & HH & HW).
  rewrite (@coarse_forward_ok 1 theta_c _ _ H0 H2 H3 H1 HH HW) in Ec.
  injection Ec as <-.
  pose proof (fine_forward_inv _ _ _ _ _ _ Ef)
    as ((B0 & B2 & B3) & (F0 & F2 & F3) & (W0 & W2 & W3) & G1 & GH & GW).
  rewrite (@fine_forward_ok 1 theta_f _ _ _ _ B0 B2 B3 F0 F2 F3 W0 W2 W3 G1 GH GW) in Ef.
  injection Ef as <-.
  cbn [pixel_shuffle_apply item F_tanh map_tensor conv_apply].
  rewrite !conv_item_zero_weight by (intros; cbn; auto).
  cbn [bias _CoarseFlow.conv5 _FineFlow.conv5 _CoarseFlow.init _FineFlow.init nn_Conv2d].
  match goal with
  | |- (1 < tanh ?x + tanh ?y)%R =>
      pose proof (@tanh_above_half x (Bf _)); pose proof (@tanh_above_half y (Bc _))
  end.
  lra.
Qed.

(** * The padding adapter in front of the composer *)

(** X12: single-channel frames whose height is 3 modulo 4 (67 rows, say)
    and whose width is a positive multiple of 4 are rejected by the
    composer, in the fine estimator's torch.cat (the coarse flow has H+1
    rows); padded by the adapter first, they are accepted and the flow
    field has shape (N,2,H+1,W). *)
Theorem Pad67to68_feeds_FlowField ac theta_c theta_f (frame_t frame_tp1 : Tensor R) N H W :
  shape frame_t = (N, 1, H, W) -> shape frame_tp1 = (N, 1, H, W) ->
  H mod 4 = 3 -> 1 <= W -> W mod 4 = 0 ->
  let self := FlowField.init theta_c theta_f in
  FlowField.forward ac self frame_t frame_tp1 = Err (CatSizeMismatch 2 H (H + 1)) /\
  exists padded_t padded_tp1 out,
    Pad67to68.forward Pad67to68.init frame_t = Ok padded_t /\
    Pad67to68.forward Pad67to68.init frame_tp1 = Ok padded_tp1 /\
    FlowField.forward ac self padded_t padded_tp1 = Ok out /\
    shape out = (N, 2, H + 1, W).
Proof.
  intros Ha Hb Hm HW Wm self. unfold shape in Ha, Hb.
  injection Ha as A0 A1 A2 A3. injection Hb as B0 B1 B2 B3.
  assert (HH : 3 <= H).
  { pose proof (Nat.div_mod_eq H 4). lia. }
  split.
  - pose proof (composer_cases ac theta_c theta_f frame_t frame_tp1) as Seq.
    cbv zeta in Seq. fold self in Seq.
    unfold self in Seq at 1 2 3.
    cbn [FlowField.coarse_net FlowField.fine_net FlowField.warp FlowField.init] in Seq.
    destruct (_CoarseFlow.forward _ frame_t frame_tp1) as [cf|e] eqn:Ec.
    2:{ exfalso. rewrite coarse_forward_ok in Ec; [discriminate | lia ..]. }
    pose proof (coarse_forward_dims _ _ _ _ Ec) as (C0 & C1 & C2 & C3).
    rewrite Warp_forward_ok in Seq by lia.
    assert (Ef : forall wf, _FineFlow.forward (_FineFlow.init 1 theta_f)
                   frame_t frame_tp1 cf wf = Err (CatSizeMismatch 2 H (H + 1))).
    { intro wf. unfold _FineFlow.forward, torch_cat_dim1. cbn [cat_onto].
      rewrite cat_check_ok by lia. cbn [bind].
      unfold cat_check at 1. cbn [cat2 dim0 dim2 dim3].
      rewrite C0, Nat.eqb_refl. cbn [negb].
      assert (E2 : dim2 cf = H + 1).
      { rewrite C2, A2.
        pose proof (Nat.div_mod_eq H 4).
        pose proof (Nat.div_mod_eq (H + 1) 2). pose proof (Nat.mod_upper_bound (H + 1) 2).
        pose proof (Nat.div_mod_eq ((H + 1) / 2 + 1) 2).
        pose proof (Nat.mod_upper_bound ((H + 1) / 2 + 1) 2). lia. }
      rewrite E2, A2.
      destruct (Nat.eqb_spec (H + 1) H); [lia|]. reflexivity. }
    rewrite Ef in Seq. exact Seq.
  - assert (Pa := @Pad67to68_forward_ok R frame_t ltac:(lia) ltac:(lia) ltac:(lia)).
    assert (Pb := @Pad67to68_forward_ok R frame_tp1 ltac:(lia) ltac:(lia) ltac:(lia)).
    match type of Pa with _ = Ok ?t => set (pa := t) in * end.
    match type of Pb with _ = Ok ?t => set (pb := t) in * end.
    assert (Hm' : (H + 0 + 1) mod 4 = 0).
    { pose proof (Nat.div_mod_eq H 4). pose proof (Nat.div_mod_eq (H + 0 + 1) 4).
      pose proof (Nat.mod_upper_bound (H + 0 + 1) 4). lia. }
    destruct (@composer_ok ac theta_c theta_f pa pb) as (out & Eo & So);
      try (subst pa pb; cbn [dim0 dim1 dim2 dim3]; lia).
    { subst pa pb; cbn [dim0 dim1 dim2 dim3]. rewrite A2. exact Hm'. }
    { subst pa pb; cbn [dim0 dim1 dim2 dim3]. rewrite A3, !Nat.add_0_r. exact Wm. }
    exists pa, pb, out. repeat split; try assumption.
    rewrite So. subst pa. cbn [dim0 dim1 dim2 dim3].
    f_equal; [f_equal; [f_equal|]|]; lia.
Qed.

(** * Warp: range of the samples, samples outside the frame *)

Lemma safe_get_in_range (x : Tensor R) n c iy ix lo hi :
  (lo <= 0 <= hi)%R -> n < dim0 x -> c < dim1 x ->
  all_items (fun v => (lo <= v <= hi)%R) x ->
  (lo <= safe_get x n c iy ix <= hi)%R.
Proof.
  intros H0 Hn Hc Hx. unfold safe_get, within_bounds.
  destruct (Z.leb_spec 0 iy); cbn [andb]; [|exact H0].
  destruct (Z.ltb_spec iy (Z.of_nat (dim2 x))); cbn [andb]; [|exact H0].
  destruct (Z.leb_spec 0 ix); cbn [andb]; [|exact H0].
  destruct (Z.ltb_spec ix (Z.of_nat (dim3 x))); [|exact H0].
  apply Hx. repeat split; lia.
Qed.

Lemma convex4 lo hi a b v1 v2 v3 v4 :
  (0 <= a <= 1 -> 0 <= b <= 1 ->
   lo <= v1 <= hi -> lo <= v2 <= hi -> lo <= v3 <= hi -> lo <= v4 <= hi ->
   lo <= v1 * ((1 - a) * (1 - b)) + v2 * (a * (1 - b)) +
         v3 * ((1 - a) * b) + v4 * (a * b) <= hi)%R.
Proof.
  intros Ha Hb H1 H2 H3 H4.
  assert (W1 : (0 <= (1 - a) * (1 - b))%R) by (apply Rmult_le_pos; lra).
  assert (W2 : (0 <= a * (1 - b))%R) by (apply Rmult_le_pos; lra).
  assert (W3 : (0 <= (1 - a) * b)%R) by (apply Rmult_le_pos; lra).
  assert (W4 : (0 <= a * b)%R) by (apply Rmult_le_pos; lra).
  set (w1 := ((1 - a) * (1 - b))%R) in *. set (w2 := (a * (1 - b))%R) in *.
  set (w3 := ((1 - a) * b)%R) in *. set (w4 := (a * b)%R) in *.
  assert (S : (w1 + w2 + w3 + w4 = 1)%R) by (unfold w1, w2, w3, w4; ring).
  assert (El : (w1 * lo + w2 * lo + w3 * lo + w4 * lo = lo)%R).
  { transitivity ((w1 + w2 + w3 + w4) * lo)%R; [ring | rewrite S; ring]. }
  assert (Eh : (w1 * hi + w2 * hi + w3 * hi + w4 * hi = hi)%R).
  { transitivity ((w1 + w2 + w3 + w4) * hi)%R; [ring | rewrite S; ring]. }
  pose proof (Rmult_le_compat_l _ _ _ W1 (proj1 H1)).
  pose proof (Rmult_le_compat_l _ _ _ W1 (proj2 H1)).
  pose proof (Rmult_le_compat_l _ _ _ W2 (proj1 H2)).
  pose proof (Rmult_le_compat_l _ _ _ W2 (proj2 H2)).
  pose proof (Rmult_le_compat_l _ _ _ W3 (proj1 H3)).
  pose proof (Rmult_le_compat_l _ _ _ W3 (proj2 H3)).
  pose proof (Rmult_le_compat_l _ _ _ W4 (proj1 H4)).
  pose proof (Rmult_le_compat_l _ _ _ W4 (proj2 H4)).
  lra.
Qed.

Lemma bilinear_in_range (x : Tensor R) n c ix iy lo hi :
  (lo <= 0 <= hi)%R -> n < dim0 x -> c < dim1 x ->
  all_items (fun v => (lo <= v <= hi)%R) x ->
  (lo <= bilinear x n c ix iy <= hi)%R.
Proof.
  intros H0 Hn Hc Hx. unfold bilinear. cbv zeta. rewrite !plus_IZR.
  pose proof (Zfloor_bound ix) as Bx. pose proof (Zfloor_bound iy) as By.
  pose proof (@convex4 lo hi (ix - IZR (Zfloor ix)) (iy - IZR (Zfloor iy))
                (safe_get x n c (Zfloor iy) (Zfloor ix))
                (safe_get x n c (Zfloor iy) (Zfloor ix + 1))
                (safe_get x n c (Zfloor iy + 1) (Zfloor ix))
                (safe_get x n c (Zfloor iy + 1) (Zfloor ix + 1))
                ltac:(lra) ltac:(lra)
                (safe_get_in_range _ _ H0 Hn Hc Hx)
                (safe_get_in_range _ _ H0 Hn Hc Hx)
                (safe_get_in_range _ _ H0 Hn Hc Hx)
                (safe_get_in_range _ _ H0 Hn Hc Hx)) as Cv.
  match goal with
  | |- (lo <= ?e <= hi)%R =>
      match type of Cv with
      | (lo <= ?e' <= hi)%R => replace e with e' by ring
      end
  end.
  exact Cv.
Qed.

(** X4: warping never leaves the range of the frame: if every element of
    the frame lies in [lo,hi], with lo <= 0 <= hi (samples outside the frame
    count as 0), so does every element of the warped frame. *)
Theorem Warp_output_in_range ac self (frame_t flow_field : Tensor R) lo hi out :
  (lo <= 0 <= hi)%R ->
  all_items (fun v => (lo <= v <= hi)%R) frame_t ->
  Warp.forward ac self frame_t flow_field = Ok out ->
  all_items (fun v => (lo <= v <= hi)%R) out.
Proof.
  intros H0 Hx E.
  destruct (Warp_forward_inv _ _ _ _ E) as (D0 & D1 & HH & HW).
  rewrite Warp_forward_ok in E by assumption. injection E as <-.
  intros n c h w (Hn & Hc & _). cbn [dim0 dim1 item] in *.
  apply bilinear_in_range; assumption.
Qed.

Lemma safe_get_outside (x : Tensor R) n c iy ix :
  (ix < 0 \/ Z.of_nat (dim3 x) <= ix \/ iy < 0 \/ Z.of_nat (dim2 x) <= iy)%Z ->
  safe_get x n c iy ix = 0%R.
Proof.
  intro H. unfold safe_get, within_bounds.
  destruct (Z.leb_spec 0 iy); cbn [andb]; [|reflexivity].
  destruct (Z.ltb_spec iy (Z.of_nat (dim2 x))); cbn [andb]; [|reflexivity].
  destruct (Z.leb_spec 0 ix); cbn [andb]; [|reflexivity].
  destruct (Z.ltb_spec ix (Z.of_nat (dim3 x))); [lia | reflexivity].
Qed.

Lemma Zfloor_below r : (r < -1)%R -> (Zfloor r + 1 < 0)%Z.
Proof.
  intro H. pose proof (Zfloor_bound r) as [B _].
  assert (L : (IZR (Zfloor r) < IZR (-1))%R) by lra.
  apply lt_IZR in L. lia.
Qed.

Lemma Zfloor_above r k : (INR k <= r)%R -> (Z.of_nat k <= Zfloor r)%Z.
Proof. intro H. apply Zfloor_lub. rewrite <- INR_IZR_INZ. exact H. Qed.

Lemma bilinear_outside (x : Tensor R) n c ix iy :
  (ix < -1 \/ INR (dim3 x) <= ix \/ iy < -1 \/ INR (dim2 x) <= iy)%R ->
  bilinear x n c ix iy = 0%R.
Proof.
  intro H. unfold bilinear. cbv zeta.
  assert (G : forall dy dx, (0 <= dy <= 1)%Z -> (0 <= dx <= 1)%Z ->
            safe_get x n c (Zfloor iy + dy) (Zfloor ix + dx) = 0%R).
  { intros dy dx Hy Hdx. apply safe_get_outside.
    destruct H as [H|[H|[H|H]]].
    - apply Zfloor_below in H. lia.
    - apply Zfloor_above in H. lia.
    - apply Zfloor_below in H. lia.
    - apply Zfloor_above in H. lia. }
  pose proof (G 0 0 ltac:(lia) ltac:(lia))%Z as G00.
  pose proof (G 0 1 ltac:(lia) ltac:(lia))%Z as G01.
  pose proof (G 1 0 ltac:(lia) ltac:(lia))%Z as G10.
  pose proof (G 1 1 ltac:(lia) ltac:(lia))%Z as G11.
  rewrite !Z.add_0_r in *.
  rewrite G00, G01, G10, G11. ring.
Qed.

(** X5: a grid point whose unnormalized x coordinate is below -1 or at
    least the frame's width, or whose y coordinate is below -1 or at least
    the frame's height, is warped to 0: the frame is padded with zeros, not
    clamped to its border. *)
Theorem Warp_outside_samples_zero ac self (frame_t flow_field : Tensor R) out n c h w :
  Warp.forward ac self frame_t flow_field = Ok out ->
  let x := unnormalize ac (item flow_field n 0 h w) (dim3 frame_t) in
  let y := unnormalize ac (item flow_field n 1 h w) (dim2 frame_t) in
  (x < -1 \/ INR (dim3 frame_t) <= x \/ y < -1 \/ INR (dim2 frame_t) <= y)%R ->
  item out n c h w = 0%R.
Proof.
  intros E x y H.
  destruct (Warp_forward_inv _ _ _ _ E) as (D0 & D1 & HH & HW).
  rewrite Warp_forward_ok in E by assumption. injection E as <-.
  cbn [item]. apply bilinear_outside. exact H.
Qed.

(** X14: the padding adapter returns exactly on tensors with at least one
    channel, two rows and one column, whatever the batch size; a tensor
    with one row (and at least one channel and column) raises "padding 1
    too large for size 1". *)
Theorem Pad67to68_forward_accepts A (x : Tensor A) :
  (succeeds (Pad67to68.forward Pad67to68.init x) <->
   1 <= dim1 x /\ 2 <= dim2 x /\ 1 <= dim3 x) /\
  (1 <= dim1 x -> dim2 x = 1 -> 1 <= dim3 x ->
   Pad67to68.forward Pad67to68.init x = Err (PadTooLarge 1 1)).
Proof.
  split; [split|].
  - intros [out E].
    unfold Pad67to68.forward, ReflectionPad2d_forward in E.
    cbn [Pad67to68.pad Pad67to68.init pad_left pad_right pad_top pad_bottom] in E.
    destruct (Nat.eqb_spec (dim1 x) 0); cbn [orb] in E; [discriminate|].
    destruct (Nat.eqb_spec (dim2 x) 0); cbn [orb] in E; [discriminate|].
    destruct (Nat.eqb_spec (dim3 x) 0); [discriminate|].
    destruct (Nat.leb_spec (dim3 x) 0); [discriminate|].
    destruct (Nat.leb_spec (dim2 x) 0); [discriminate|].
    destruct (Nat.leb_spec (dim2 x) 1); [discriminate|].
    lia.
  - intros (HC & HH & HW). eexists. apply Pad67to68_forward_ok; assumption.
  - intros HC HH HW.
    unfold Pad67to68.forward, ReflectionPad2d_forward.
    cbn [Pad67to68.pad Pad67to68.init pad_left pad_right pad_top pad_bottom].
    rewrite HH.
    destruct (Nat.eqb_spec (dim1 x) 0); cbn [orb Nat.eqb]; [lia|].
    destruct (Nat.eqb_spec (dim3 x) 0); [lia|].
    destruct (Nat.leb_spec (dim3 x) 0); [lia|].
    reflexivity.
Qed.

Lemma Pad67to68_forward_accepts_witness :
  Pad67to68.forward Pad67to68.init one_row = Err (PadTooLarge 1 1).
Proof.
  apply (proj2 (@Pad67to68_forward_accepts nat one_row)); cbn; lia.
Defined.

(** * The extra properties at concrete inputs *)

Lemma Warp_output_in_range_witness :
  exists out,
    Warp.forward false Warp.init (full 1 1 2 2 1%R) (zeros 1 2 2 2) = Ok out /\
    all_items (fun v => (0 <= v <= 1)%R) out.
Proof.
  eexists. split; [reflexivity|].
  apply (@Warp_output_in_range false Warp.init (full 1 1 2 2 1%R) (zeros 1 2 2 2) 0%R 1%R).
  - lra.
  - intros n c h w _. cbn. lra.
  - reflexivity.
Defined.

Lemma Warp_outside_samples_zero_witness :
  exists out,
    Warp.forward false Warp.init (full 1 1 2 2 1%R) (full 1 2 2 2 3%R) = Ok out /\
    item out 0 0 0 0 = 0%R.
Proof.
  eexists. split; [reflexivity|].
  apply (@Warp_outside_samples_zero false Warp.init
           (full 1 1 2 2 1%R) (full 1 2 2 2 3%R) _ 0 0 0 0 eq_refl).
  right. left. unfold unnormalize. cbn. lra.
Defined.


Lemma FlowField_forward_errors_witness :
  (exists d x y, ConvChannelMismatch 2 6 = CatSizeMismatch d x y) \/
  ConvChannelMismatch 2 6 = ConvChannelMismatch 2 (3 + 3) \/
  ConvChannelMismatch 2 6 = ConvChannelMismatch 5 (3 + 3 + 2 + 3) \/
  (exists s, ConvChannelMismatch 2 6 = ConvKernelTooLarge s 5).
Proof.
  exact (@FlowField_forward_errors false zero_params5 zero_params5
           (zeros 1 3 4 4) (zeros 1 3 4 4) (ConvChannelMismatch 2 6) eq_refl).
Defined.

Lemma FlowField_warp_stage_returns_witness :
  exists coarse_flow coarse_frame_tp1,
    _CoarseFlow.forward (_CoarseFlow.init 1 zero_params5) (zeros 1 1 4 4) (zeros 1 1 4 4)
    = Ok coarse_flow /\
    Warp.forward true Warp.init (zeros 1 1 4 4) coarse_flow = Ok coarse_frame_tp1 /\
    shape coarse_frame_tp1 = (1, 1, dim2 coarse_flow, dim3 coarse_flow).
Proof.
  eexists.
  destruct (@FlowField_warp_stage_returns true zero_params5 zero_params5
              (zeros 1 1 4 4) (zeros 1 1 4 4) _ eq_refl) as (wf & Ew & Sw).
  exists wf. split; [reflexivity|]. split; [exact Ew | exact Sw].
Defined.

Lemma FlowField_output_within_two_witness :
  exists out,
    FlowField.forward false (FlowField.init zero_params5 zero_params5)
      (zeros 1 1 4 4) (zeros 1 1 4 4) = Ok out /\
    all_items (fun v => (-2 <= v <= 2)%R) out.
Proof.
  eexists. split; [reflexivity|].
  exact (@FlowField_output_within_two false zero_params5 zero_params5
           (zeros 1 1 4 4) (zeros 1 1 4 4) _ eq_refl).
Defined.

Lemma FlowField_output_may_exceed_one_witness :
  exists out,
    FlowField.forward false (FlowField.init unit_bias_params5 unit_bias_params5)
      (zeros 1 1 4 4) (zeros 1 1 4 4) = Ok out /\
    all_items (fun v => (1 < v)%R) out.
Proof.
  eexists. split; [reflexivity|].
  apply (@FlowField_output_may_exceed_one false unit_bias_params5 unit_bias_params5
           (zeros 1 1 4 4) (zeros 1 1 4 4)).
  - intros co ci ki kj. reflexivity.
  - intros co ci ki kj. reflexivity.
  - intro co. cbn. lra.
  - intro co. cbn. lra.
  - reflexivity.
Defined.

Lemma Pad67to68_feeds_FlowField_witness :
  FlowField.forward false (FlowField.init zero_params5 zero_params5)
    (zeros 1 1 67 4) (zeros 1 1 67 4) = Err (CatSizeMismatch 2 67 (67 + 1)) /\
  exists padded_t padded_tp1 out,
    Pad67to68.forward Pad67to68.init (zeros 1 1 67 4) = Ok padded_t /\
    Pad67to68.forward Pad67to68.init (zeros 1 1 67 4) = Ok padded_tp1 /\
    FlowField.forward false (FlowField.init zero_params5 zero_params5)
      padded_t padded_tp1 = Ok out /\
    shape out = (1, 2, 67 + 1, 4).
Proof.
  apply (@Pad67to68_feeds_FlowField false zero_params5 zero_params5
           (zeros 1 1 67 4) (zeros 1 1 67 4) 1 67 4 eq_refl eq_refl eq_refl).
  - lia.
  - reflexivity.
Defined.

